(** * A fixed-size worker pool: interleaving model of [cpp/src/thread_pool.cpp]

    The class [ThreadPool] owns a FIFO of callables, a mutex, a condition
    variable, a shutdown flag and a vector of worker threads.  Every thread of
    the program (the owning thread, further submitting threads, the workers)
    is given a program counter that names the source line it is about to
    execute; one [step] executes one such line.  The mutex is a field holding
    its current owner, the wait set of the condition variable is the set of
    workers whose program counter is [WWait].

    History lists are kept next to the program state (what was submitted,
    removed from the queue, executed).  They are ghost data: no step reads
    them to decide what to do. *)

From stdpp Require Import list.
From Stdlib Require Import ZArith Lia.

Local Open Scope nat_scope.

(** ** Threads *)

Inductive tid : Type :=
| Main
| Caller (j : nat)
| Worker (i : nat).

Section Pool.

Context {Task Env : Type}.

(** [call t e] is the effect of [task()] (line 33) on the state the tasks
    share; [None] stands for an exception leaving the callable.  A task is
    taken to run to its end and to act on the shared state in one step, as
    the benchmark's tasks do with their single atomic addition. *)
Variable call : Task → Env → option Env.

(** A queue element: the callable together with the serial number of its
    submission.  The serial number stands for the identity of the
    [std::function] object; it is ghost data. *)
Definition entry : Type := nat * Task.

(** Program counter of a worker, lines 20-34. *)
Inductive wpc : Type :=
| WLock                (* line 23: about to acquire queue_mutex *)
| WPred                (* line 24: owns the mutex, evaluates the wait predicate *)
| WWait                (* line 24: blocked inside condition.wait, mutex released *)
| WWoken               (* line 24: unblocked, about to re-acquire the mutex *)
| WTest                (* line 26: owns the mutex *)
| WFront               (* line 30: owns the mutex *)
| WPop (e : entry)     (* line 31: owns the mutex, [e] was moved out of front() *)
| WUnlock (e : entry)  (* line 32: end of the locked scope *)
| WRun (e : entry)     (* line 33: task() *)
| WExit.               (* returned at line 27 *)

(** Program counter inside [ThreadPool::enqueue], lines 40-46. *)
Inductive cpc : Type :=
| CCall                (* outside enqueue; the next call locks at line 42 *)
| CEmplace (t : Task)  (* line 43: owns the mutex *)
| CUnlock              (* line 44: end of the locked scope *)
| CNotify.             (* line 45 *)

(** A submitting thread: where it is, and the callables it still has to
    submit. *)
Record caller : Type := MkCaller { c_pc : cpc; c_todo : list Task }.

(** Program counter of the destructor, lines 48-57. *)
Inductive dpc : Type :=
| DLive                (* the pool is in scope *)
| DSet                 (* line 51: owns the mutex *)
| DUnlock              (* line 52: end of the locked scope *)
| DNotify              (* line 53 *)
| DJoin (k : nat)      (* lines 54-55: about to join workers[k] *)
| DDone.               (* the destructor has returned *)

Record state : Type := State {
  (* the members of ThreadPool *)
  workers : list wpc;
  tasks : list entry;
  queue_mutex : option tid;
  stop : bool;
  (* the client threads *)
  main_c : caller;
  main_d : dpc;
  callers : list caller;
  (* what the tasks act on; whether std::terminate was called *)
  env : Env;
  terminated : bool;
  (* history, newest first *)
  submitted : list entry;
  claimed : list (nat * entry);
  executed : list entry;
  pre_stop : list entry
}.

Definition set_workers (ws : list wpc) (s : state) : state :=
  State ws (tasks s) (queue_mutex s) (stop s) (main_c s) (main_d s)
        (callers s) (env s) (terminated s) (submitted s) (claimed s)
        (executed s) (pre_stop s).

Definition set_worker (i : nat) (w : wpc) (s : state) : state :=
  set_workers (<[i:=w]> (workers s)) s.

Definition set_tasks (q : list entry) (s : state) : state :=
  State (workers s) q (queue_mutex s) (stop s) (main_c s) (main_d s)
        (callers s) (env s) (terminated s) (submitted s) (claimed s)
        (executed s) (pre_stop s).

Definition set_mutex (m : option tid) (s : state) : state :=
  State (workers s) (tasks s) m (stop s) (main_c s) (main_d s)
        (callers s) (env s) (terminated s) (submitted s) (claimed s)
        (executed s) (pre_stop s).

Definition set_stop (b : bool) (s : state) : state :=
  State (workers s) (tasks s) (queue_mutex s) b (main_c s) (main_d s)
        (callers s) (env s) (terminated s) (submitted s) (claimed s)
        (executed s) (pre_stop s).

Definition set_main_c (c : caller) (s : state) : state :=
  State (workers s) (tasks s) (queue_mutex s) (stop s) c (main_d s)
        (callers s) (env s) (terminated s) (submitted s) (claimed s)
        (executed s) (pre_stop s).

Definition set_main_d (d : dpc) (s : state) : state :=
  State (workers s) (tasks s) (queue_mutex s) (stop s) (main_c s) d
        (callers s) (env s) (terminated s) (submitted s) (claimed s)
        (executed s) (pre_stop s).

Definition set_callers (cs : list caller) (s : state) : state :=
  State (workers s) (tasks s) (queue_mutex s) (stop s) (main_c s) (main_d s)
        cs (env s) (terminated s) (submitted s) (claimed s)
        (executed s) (pre_stop s).

Definition set_env (e : Env) (s : state) : state :=
  State (workers s) (tasks s) (queue_mutex s) (stop s) (main_c s) (main_d s)
        (callers s) e (terminated s) (submitted s) (claimed s)
        (executed s) (pre_stop s).

Definition set_terminated (b : bool) (s : state) : state :=
  State (workers s) (tasks s) (queue_mutex s) (stop s) (main_c s) (main_d s)
        (callers s) (env s) b (submitted s) (claimed s)
        (executed s) (pre_stop s).

Definition log_submitted (e : entry) (s : state) : state :=
  State (workers s) (tasks s) (queue_mutex s) (stop s) (main_c s) (main_d s)
        (callers s) (env s) (terminated s) (e :: submitted s) (claimed s)
        (executed s) (pre_stop s).

Definition log_claimed (i : nat) (e : entry) (s : state) : state :=
  State (workers s) (tasks s) (queue_mutex s) (stop s) (main_c s) (main_d s)
        (callers s) (env s) (terminated s) (submitted s) ((i, e) :: claimed s)
        (executed s) (pre_stop s).

Definition log_executed (e : entry) (s : state) : state :=
  State (workers s) (tasks s) (queue_mutex s) (stop s) (main_c s) (main_d s)
        (callers s) (env s) (terminated s) (submitted s) (claimed s)
        (e :: executed s) (pre_stop s).

Definition mark_stop (s : state) : state :=
  State (workers s) (tasks s) (queue_mutex s) (stop s) (main_c s) (main_d s)
        (callers s) (env s) (terminated s) (submitted s) (claimed s)
        (executed s) (submitted s).

(** ** The condition variable *)

Definition wake (w : wpc) : wpc :=
  match w with WWait => WWoken | _ => w end.

(** [condition.notify_all()]: every blocked worker is unblocked. *)
Definition notify_all (ws : list wpc) : list wpc := wake <$> ws.

Fixpoint wake_first (ws : list wpc) : list wpc :=
  match ws with
  | [] => []
  | WWait :: ws' => WWoken :: ws'
  | w :: ws' => w :: wake_first ws'
  end.

(** [condition.notify_one()]: one blocked worker is unblocked when there is
    one.  Which one is not specified; [pick] is the scheduler's choice, used
    when it names a blocked worker. *)
Definition notify_one (pick : nat) (ws : list wpc) : list wpc :=
  match ws !! pick with
  | Some WWait => <[pick:=WWoken]> ws
  | _ => wake_first ws
  end.

(** ** One step of each kind of thread *)

Definition is_empty {A} (l : list A) : bool :=
  match l with [] => true | _ => false end.

Definition mutex_free (s : state) : bool :=
  match queue_mutex s with None => true | Some _ => false end.

(** The worker lambda of the constructor, lines 19-35.  A step that the
    worker cannot take now (the mutex is taken, the worker is blocked or has
    ended) and a step with undefined behaviour give [None].  An exception
    leaving [task()] leaves the thread function, which terminates the
    process. *)
Definition worker_step (i : nat) (s : state) : option state :=
  match workers s !! i with
  | None => None
  | Some w =>
    match w with
    | WLock =>                                  (* line 23 *)
        if mutex_free s
        then Some (set_worker i WPred (set_mutex (Some (Worker i)) s))
        else None
    | WPred =>                                  (* line 24, the predicate *)
        if stop s || negb (is_empty (tasks s))
        then Some (set_worker i WTest s)
        else Some (set_worker i WWait (set_mutex None s))
    | WWait => None                             (* blocked *)
    | WWoken =>                                 (* line 24, re-acquire *)
        if mutex_free s
        then Some (set_worker i WPred (set_mutex (Some (Worker i)) s))
        else None
    | WTest =>                                  (* lines 26-28 *)
        if stop s && is_empty (tasks s)
        then Some (set_worker i WExit (set_mutex None s))
        else Some (set_worker i WFront s)
    | WFront =>                                 (* line 30 *)
        match tasks s with
        | e :: _ => Some (set_worker i (WPop e) s)
        | [] => None                            (* front() of an empty queue *)
        end
    | WPop e =>                                 (* line 31 *)
        match tasks s with
        | h :: q =>
            Some (set_worker i (WUnlock e) (log_claimed i h (set_tasks q s)))
        | [] => None                            (* pop() of an empty queue *)
        end
    | WUnlock e =>                              (* line 32 *)
        Some (set_worker i (WRun e) (set_mutex None s))
    | WRun e =>                                 (* line 33 *)
        match call (snd e) (env s) with
        | Some v => Some (set_worker i WLock (log_executed e (set_env v s)))
        | None => Some (set_terminated true s)
        end
    | WExit => None                             (* the thread has ended *)
    end
  end.

(** A blocked worker may be unblocked without any notification. *)
Definition spurious_wake (i : nat) (s : state) : option state :=
  match workers s !! i with
  | Some WWait => Some (set_worker i WWoken s)
  | _ => None
  end.

(** [ThreadPool::enqueue], lines 40-46, run by thread [me]. *)
Definition enqueue_step (me : tid) (pick : nat) (c : caller) (s : state)
  : option (caller * state) :=
  match c_pc c with
  | CCall =>                                    (* line 42 *)
      match c_todo c with
      | t :: rest =>
          if mutex_free s
          then Some (MkCaller (CEmplace t) rest, set_mutex (Some me) s)
          else None
      | [] => None
      end
  | CEmplace t =>                               (* line 43 *)
      let e := (length (submitted s), t) in
      Some (MkCaller CUnlock (c_todo c),
            log_submitted e (set_tasks (tasks s ++ [e]) s))
  | CUnlock =>                                  (* line 44 *)
      Some (MkCaller CNotify (c_todo c), set_mutex None s)
  | CNotify =>                                  (* line 45 *)
      Some (MkCaller CCall (c_todo c),
            set_workers (notify_one pick (workers s)) s)
  end.

Definition caller_step (j pick : nat) (s : state) : option state :=
  match callers s !! j with
  | None => None
  | Some c =>
    match enqueue_step (Caller j) pick c s with
    | Some (c', s') => Some (set_callers (<[j:=c']> (callers s')) s')
    | None => None
    end
  end.

(** The owning thread: its submissions, then [~ThreadPool], lines 48-57. *)
Definition main_step (pick : nat) (s : state) : option state :=
  match main_d s with
  | DLive =>
      match main_c s with
      | MkCaller CCall [] =>                    (* line 50 *)
          if mutex_free s
          then Some (set_main_d DSet (set_mutex (Some Main) s))
          else None
      | c =>
          match enqueue_step Main pick c s with
          | Some (c', s') => Some (set_main_c c' s')
          | None => None
          end
      end
  | DSet =>                                     (* line 51 *)
      Some (set_main_d DUnlock (mark_stop (set_stop true s)))
  | DUnlock =>                                  (* line 52 *)
      Some (set_main_d DNotify (set_mutex None s))
  | DNotify =>                                  (* line 53 *)
      Some (set_main_d (DJoin 0) (set_workers (notify_all (workers s)) s))
  | DJoin k =>                                  (* lines 54-56 *)
      match workers s !! k with
      | Some WExit => Some (set_main_d (DJoin (S k)) s)
      | Some _ => None
      | None => Some (set_main_d DDone s)
      end
  | DDone => None
  end.

(** ** The interleaving *)

Inductive action : Type :=
| AWorker (i : nat)
| AWake (i : nat)
| ACaller (j pick : nat)
| AMain (pick : nat).

Definition destroyed (s : state) : bool :=
  match main_d s with DDone => true | _ => false end.

(** A run is followed up to the call of [std::terminate]: what the other
    threads still do between that call and the death of the process is not
    part of a run.  The pool object is gone once the destructor has
    returned. *)
Definition step (a : action) (s : state) : option state :=
  if terminated s || destroyed s then None
  else match a with
       | AWorker i => worker_step i s
       | AWake i => spurious_wake i s
       | ACaller j pick => caller_step j pick s
       | AMain pick => main_step pick s
       end.

Fixpoint run (sched : list action) (s : state) : option state :=
  match sched with
  | [] => Some s
  | a :: sched' =>
      match step a s with
      | Some s' => run sched' s'
      | None => None
      end
  end.

(** [ThreadPool(num_threads)], lines 17-37: the flag is false, the queue is
    empty and each of the [num_threads] workers is at the top of its loop.
    [script] is what the owning thread submits before the pool leaves scope,
    [others] what each further thread submits. *)
Definition init (num_threads : nat) (script : list Task)
    (others : list (list Task)) (e0 : Env) : state :=
  State (replicate num_threads WLock) [] None false
        (MkCaller CCall script) DLive (MkCaller CCall <$> others)
        e0 false [] [] [] [].

Definition reachable (num_threads : nat) (script : list Task)
    (others : list (list Task)) (e0 : Env) (s : state) : Prop :=
  ∃ sched, run sched (init num_threads script others e0) = Some s.

End Pool.

(** ** The benchmark program, lines 12-13 and 67-110 *)

Local Open Scope Z_scope.

#[warnings="-abstract-large-number"]
Definition NUM_TASKS : nat := 100000.
Definition NUM_WORKERS : nat := 8.

(** Arithmetic on [uint64_t] wraps modulo 2^64. *)
Definition u64 (z : Z) : Z := z mod 2 ^ 64.

(** The loop of [heavy_computation], lines 69-71: [k] iterations remain,
    [i] is the loop variable. *)
Fixpoint heavy_loop (k : nat) (n i result : Z) : Z :=
  match k with
  | O => result
  | S k' => heavy_loop k' n (i + 1) (u64 (result + u64 (n * i)))
  end.

Definition heavy_computation (n : Z) : Z := heavy_loop 1000 n 0 0.

(** The closure submitted at lines 96-99 captures [i] and a reference to
    the atomic counter. *)
Inductive bench_task : Type := AddHeavy (i : Z).

(** Its body: [counter += heavy_computation(i)], one atomic read-modify-write
    on a [std::atomic<uint64_t>]; it never throws. *)
Definition bench_call (t : bench_task) (counter : Z) : option Z :=
  match t with AddHeavy i => Some (u64 (counter + heavy_computation i)) end.

Definition bench_script (n : nat) : list bench_task :=
  (λ i : nat, AddHeavy (Z.of_nat i)) <$> seq 0 n.

(** The benchmark block of [main], lines 92-101, with the counter of line 76.
    The warm-up block, lines 79-88, has a pool and a counter of its own and
    leaves this counter at 0. *)
Definition bench_init : state :=
  init NUM_WORKERS (bench_script NUM_TASKS) [] 0.


Definition payload (t : bench_task) : Z := match t with AddHeavy i => i end.

(** The sum the benchmark is expected to print: the values of
    [heavy_computation] over the submitted closures. *)
Definition bench_sum (l : list bench_task) : Z :=
  foldr (λ t acc, heavy_computation (payload t) + acc) 0 l.

(** The sum of [k] consecutive integers from [i]. *)
Fixpoint tri (k : nat) (i : Z) : Z :=
  match k with
  | O => 0
  | S k' => i + tri k' (i + 1)
  end.
(** ** Predicates used to state the properties *)

Local Open Scope nat_scope.

Section Predicates.

Context {Task Env : Type}.
Implicit Types (s : @state Task Env) (w : @wpc Task).

(** The program counters at which a thread owns [queue_mutex]. *)
Definition wholds w : bool :=
  match w with
  | WPred | WTest | WFront | WPop _ | WUnlock _ => true
  | _ => false
  end.

Definition cholds (c : @cpc Task) : bool :=
  match c with CEmplace _ | CUnlock => true | _ => false end.

Definition dholds (d : dpc) : bool :=
  match d with DSet | DUnlock => true | _ => false end.

Definition holds s (t : tid) : bool :=
  match t with
  | Main => cholds (c_pc (main_c s)) || dholds (main_d s)
  | Caller j => from_option (λ c, cholds (c_pc c)) false (callers s !! j)
  | Worker i => from_option wholds false (workers s !! i)
  end.

(** The entry a worker has removed from the queue and not yet run to
    completion. *)
Definition held w : list (@entry Task) :=
  match w with WUnlock e | WRun e => [e] | _ => [] end.

Definition in_flight s : list (@entry Task) := workers s ≫= held.

(** Serial numbers count submissions: the newest entry of a history of
    length [n+1] has number [n]. *)
Fixpoint numbered (l : list (@entry Task)) : Prop :=
  match l with
  | [] => True
  | e :: l' => fst e = length l' ∧ numbered l'
  end.

(** What a submitting thread has not yet placed in the queue. *)
Definition pending (c : @caller Task) : list Task :=
  match c_pc c with CEmplace t => [t] | _ => [] end ++ c_todo c.

Definition is_exit w : bool := match w with WExit => true | _ => false end.

(** *** Invariants of the reachable states *)

(** Mutual exclusion: a thread whose program counter is inside a locked scope
    is the owner recorded in the mutex.  The destructor starts only when the
    owning thread has nothing left to submit. *)
Definition lock_inv s : Prop :=
  (∀ i w, workers s !! i = Some w → wholds w = true →
          queue_mutex s = Some (Worker i)) ∧
  (∀ j c, callers s !! j = Some c → cholds (c_pc c) = true →
          queue_mutex s = Some (Caller j)) ∧
  (cholds (c_pc (main_c s)) || dholds (main_d s) = true →
          queue_mutex s = Some Main) ∧
  (main_d s ≠ DLive → main_c s = MkCaller CCall []).

(** The submission history is the queue (oldest first) followed by what was
    removed from it; a worker between [front()] and [pop()] still finds its
    entry at the front; a worker past the predicate finds the flag set or the
    queue non-empty. *)
Definition queue_inv s : Prop :=
  submitted s = rev (tasks s) ++ (snd <$> claimed s) ∧
  (∀ i e, workers s !! i = Some (WPop e) → head (tasks s) = Some e) ∧
  (∀ i, workers s !! i = Some WFront → tasks s ≠ []) ∧
  (∀ i, workers s !! i = Some WTest → stop s = true ∨ tasks s ≠ []).

(** What was removed from the queue is in flight or executed. *)
Definition flight_inv s : Prop :=
  (snd <$> claimed s) ≡ₚ in_flight s ++ executed s.

(** The flag is set exactly from line 51 on; no worker returns before; what
    is queued after a worker has returned was submitted after the flag was
    set; the workers already joined have returned. *)
Definition stop_inv s : Prop :=
  (stop s = false →
     (main_d s = DLive ∨ main_d s = DSet) ∧ ∀ i, workers s !! i ≠ Some WExit) ∧
  (stop s = true →
     main_d s ≠ DLive ∧ main_d s ≠ DSet ∧ ∃ l, submitted s = l ++ pre_stop s) ∧
  ((∃ i, workers s !! i = Some WExit) → ∀ e, e ∈ tasks s → e ∉ pre_stop s) ∧
  (∀ k, main_d s = DJoin k → ∀ i, i < k → workers s !! i = Some WExit) ∧
  (main_d s = DDone → ∀ i w, workers s !! i = Some w → w = WExit).

Definition inv s : Prop :=
  lock_inv s ∧ queue_inv s ∧ numbered (submitted s) ∧ flight_inv s ∧ stop_inv s.

(** With a single submitting thread, the submissions made so far followed by
    what that thread still has to submit is its script; after the flag is
    set nothing more is submitted. *)
Definition script_inv (script : list Task) s : Prop :=
  callers s = [] →
  rev (snd <$> submitted s) ++ pending (main_c s) = script ∧
  (stop s = true → pre_stop s = submitted s).

(** Whoever else submits, each callable of the owning thread's script is
    submitted or still to be submitted, and was submitted before the flag was
    set. *)
Definition script_mem_inv (script : list Task) s : Prop :=
  (∀ t, t ∈ script → t ∈ snd <$> submitted s ∨ t ∈ pending (main_c s)) ∧
  (stop s = true → ∀ t, t ∈ script → t ∈ snd <$> pre_stop s).

(** With a single worker, the entries removed from the queue are the one in
    flight followed by the executed ones. *)
Definition fifo_inv s : Prop :=
  ∀ w, workers s = [w] → snd <$> claimed s = held w ++ executed s.

(** The owner recorded in the mutex is at a program counter inside a locked
    scope. *)
Definition owner_inv s : Prop :=
  ∀ t, queue_mutex s = Some t → holds s t = true.

(** Once [notify_all] has run no worker is blocked in the wait. *)
Definition joining (d : dpc) : bool :=
  match d with DJoin _ | DDone => true | _ => false end.

Definition nowait_inv s : Prop :=
  joining (main_d s) = true → ∀ i, workers s !! i ≠ Some WWait.

Definition live s : Prop := inv s ∧ owner_inv s ∧ nowait_inv s.

(** *** A bound on the number of steps that remain

    Each thread is given a weight that pays for the steps it can still take:
    a queued or in-flight entry pays for one turn of a worker's loop, a
    pending notification pays for one wake-up. *)
Definition rank w : nat :=
  match w with
  | WExit => 0 | WRun _ => 1 | WUnlock _ => 2 | WPop _ => 3 | WFront => 4
  | WTest => 5 | WWait => 6 | WPred => 7 | WWoken => 8 | WLock => 9
  end.

Definition worker_weight w : nat := rank w + 9 * length (held w).

Definition caller_weight (c : @caller Task) : nat :=
  16 * length (c_todo c) +
  match c_pc c with CCall => 0 | CEmplace _ => 15 | CUnlock => 5 | CNotify => 4 end.

Definition dtor_weight (n : nat) (d : dpc) : nat :=
  match d with
  | DLive => 4 * n + 6 | DSet => 4 * n + 5 | DUnlock => 4 * n + 4
  | DNotify => 4 * n + 3 | DJoin k => (n - k) + 1 | DDone => 0
  end.

Fixpoint total {A} (f : A → nat) (l : list A) : nat :=
  match l with
  | [] => 0
  | x :: l' => f x + total f l'
  end.

Definition measure s : nat :=
  caller_weight (main_c s) + dtor_weight (length (workers s)) (main_d s) +
  total caller_weight (callers s) + total worker_weight (workers s) +
  9 * length (tasks s) + (if terminated s then 0 else 1).

(** A state in which the program has ended: the destructor has returned, or
    the process was terminated. *)
Definition final s : Prop := terminated s = true ∨ main_d s = DDone.

(** Schedules without spurious wake-ups. *)
Definition is_wake (a : action) : bool :=
  match a with AWake _ => true | _ => false end.

Definition no_spurious (sched : list action) : Prop :=
  Forall (λ a, is_wake a = false) sched.

End Predicates.

Section Derived.

Context {Task Env : Type}.
Variable call : Task → Env → option Env.

(** One call of [enqueue] by submitting thread [j], run without any other
    thread in between: lines 42, 43, 44 and 45. *)
Definition enqueue_call (j pick : nat) (s : @state Task Env) : option state :=
  run call (replicate 4 (ACaller j pick)) s.

(** Worker [i] runs for as long as it owns the mutex: the rest of the locked
    scope, lines 24-32. *)
Fixpoint locked_steps (fuel i : nat) (s : @state Task Env) : option state :=
  match fuel with
  | O => Some s
  | S fuel' =>
      match workers s !! i with
      | Some w =>
          if wholds w
          then match step call (AWorker i) s with
               | Some s' => locked_steps fuel' i s'
               | None => None
               end
          else Some s
      | None => None
      end
  end.

Definition on_wake (i : nat) (s : @state Task Env) : option state :=
  locked_steps 5 i s.

(** How a worker leaves the locked scope. *)
Inductive wake_result : Type :=
| Terminate                     (* line 27: return *)
| Claim (e : @entry Task)       (* line 32 reached with a task *)
| Block.                        (* back in condition.wait *)

Definition outcome (w : @wpc Task) : option wake_result :=
  match w with
  | WExit => Some Terminate
  | WRun e => Some (Claim e)
  | WWait => Some Block
  | _ => None
  end.

(** The owning thread alone: its [k] next steps. *)
Definition main_alone (k : nat) (s : @state Task Env) : option state :=
  run call (replicate k (AMain 0)) s.

(** The effect of running the entries of a history, oldest first. *)
Definition replay (ini : Env) (l : list (@entry Task)) : option Env :=
  foldr (λ e acc, acc ≫= call (snd e)) (Some ini) l.

Definition replay_inv (ini : Env) (s : @state Task Env) : Prop :=
  replay ini (executed s) = Some (env s).

End Derived.


(** ** Small concrete pools

    Tasks of the demonstration pools either add a number to a shared counter
    or throw. *)

Definition demo_call (t : option nat) (v : nat) : option nat :=
  match t with
  | Some k => Some (v + k)
  | None => None
  end.

(** Two workers, two tasks.  Worker 1 blocks on the empty queue, is woken by
    the first [notify_one] and runs the first task; worker 0 runs the second;
    then the destructor runs and joins both. *)
Definition demo_init : @state (option nat) nat :=
  init 2 [Some 1; Some 2] [] 0.

Definition demo_sched : list action :=
  replicate 2 (AWorker 1) ++ replicate 8 (AMain 0) ++
  replicate 7 (AWorker 1) ++ replicate 7 (AWorker 0) ++
  replicate 4 (AMain 0) ++
  replicate 3 (AWorker 0) ++ replicate 3 (AWorker 1) ++
  replicate 3 (AMain 0).

Definition demo_final : @state (option nat) nat :=
  default demo_init (run demo_call demo_sched demo_init).

(** One worker, three tasks. *)
Definition solo_init : @state (option nat) nat :=
  init 1 [Some 1; Some 2; Some 3] [] 0.

Definition solo_sched : list action :=
  replicate 12 (AMain 0) ++ replicate 14 (AWorker 0) ++
  replicate 4 (AMain 0) ++ replicate 10 (AWorker 0) ++
  replicate 2 (AMain 0).

Definition solo_final : @state (option nat) nat :=
  default solo_init (run demo_call solo_sched solo_init).

(** One worker and a second thread that submits while the destructor is
    running: the flag is set, the worker has already returned. *)
Definition late_init : @state (option nat) nat :=
  init 1 [] [[Some 7]] 0.

Definition late_prefix : list action :=
  replicate 3 (AMain 0) ++ replicate 3 (AWorker 0).

Definition late_state : @state (option nat) nat :=
  default late_init (run demo_call late_prefix late_init).

Definition late_after : @state (option nat) nat :=
  default late_init (enqueue_call demo_call 0 0 late_state).

Definition late_end : @state (option nat) nat :=
  default late_init (run demo_call (replicate 3 (AMain 0)) late_after).

(** One worker whose first task throws. *)
Definition throw_init : @state (option nat) nat :=
  init 1 [None; Some 5] [] 0.

Definition throw_state : @state (option nat) nat :=
  default throw_init
    (run demo_call (replicate 8 (AMain 0) ++ replicate 6 (AWorker 0)) throw_init).

Definition throw_after : @state (option nat) nat :=
  default throw_init (step demo_call (AWorker 0) throw_state).

(** A worker that has just evaluated nothing yet on a non-empty queue: the
    state of [solo_init] after the three submissions and the worker's lock. *)
Definition wake_state : @state (option nat) nat :=
  default solo_init
    (run demo_call (replicate 12 (AMain 0) ++ [AWorker 0]) solo_init).

(** The worker of [late_init] one step before it returns, and blocked on the
    empty queue before the destructor starts. *)
Definition exit_state : @state (option nat) nat :=
  default late_init
    (run demo_call (replicate 3 (AMain 0) ++ replicate 2 (AWorker 0)) late_init).

Definition waiting_state : @state (option nat) nat :=
  default late_init (run demo_call (replicate 2 (AWorker 0)) late_init).

(** No worker at all. *)
Definition idle_init : @state (option nat) nat :=
  init 0 [Some 1; Some 2] [] 0.

Definition idle_state : @state (option nat) nat :=
  default idle_init (run demo_call (replicate 4 (AMain 0)) idle_init).

(** A small instance of the benchmark. *)
Definition bench_small : @state bench_task Z :=
  init NUM_WORKERS (bench_script 3) [] 0%Z.

Definition bench_small_sched : list action :=
  replicate 12 (AMain 0) ++ replicate 7 (AWorker 3) ++
  replicate 7 (AWorker 5) ++ replicate 7 (AWorker 3) ++
  replicate 4 (AMain 0) ++
  concat ((λ i, replicate 3 (AWorker i)) <$> seq 0 8) ++
  replicate 9 (AMain 0).

Definition bench_small_final : @state bench_task Z :=
  default bench_small (run bench_call bench_small_sched bench_small).

(** ** Wake-ups

    A worker is awake when it is neither blocked in the wait nor returned; a
    submitting thread owes a notification from the moment it has placed its
    task in the queue (line 43) until it has called [notify_one] (line 45). *)

Section Wakeups.

Context {Task Env : Type}.
Implicit Types (s : @state Task Env).

Definition awake (w : @wpc Task) : bool :=
  match w with WWait | WExit => false | _ => true end.

Definition notifying (c : @cpc Task) : bool :=
  match c with CUnlock | CNotify => true | _ => false end.

(** Some worker is awake, or every worker has returned. *)
Definition served (ws : list (@wpc Task)) : Prop :=
  (∃ i w, ws !! i = Some w ∧ awake w = true) ∨
  (∀ i w, ws !! i = Some w → w = WExit).

Definition wakeup_inv s : Prop :=
  tasks s ≠ [] →
  served (workers s) ∨
  notifying (c_pc (main_c s)) = true ∨
  (∃ j c, callers s !! j = Some c ∧ notifying (c_pc c) = true).

End Wakeups.

(** The tasks of a script run one after the other by a single thread, in
    the order of the script; the first exception ends the run. *)
Fixpoint sequential {Task Env : Type} (call : Task → Env → option Env)
    (v : Env) (script : list Task) : option Env :=
  match script with
  | [] => Some v
  | t :: rest =>
      match call t v with
      | Some v' => sequential call v' rest
      | None => None
      end
  end.

(** ** The function [main], lines 75-110

    Each of its two blocks constructs a pool, submits closures that add
    [heavy_computation(i)] to an atomic counter, and ends with the destructor
    of the pool.  A block has returned once the destructor has; the value of
    the block's counter is then read off the state. *)

Definition WARMUP_TASKS : nat := 100.

Definition pool_block (num_workers num_tasks : nat) (sched : list action)
  : option Z :=
  match run bench_call sched (init num_workers (bench_script num_tasks) [] 0%Z) with
  | Some s => if destroyed s then Some (env s) else None
  | None => None
  end.

(** The warm-up block adds to [counter_warmup], which nothing reads; the
    benchmark block adds to [counter], which line 107 prints. *)
Definition main_with (num_workers warmup_tasks num_tasks : nat)
    (sched_warmup sched_bench : list action) : option Z :=
  match pool_block num_workers warmup_tasks sched_warmup with
  | Some counter_warmup => pool_block num_workers num_tasks sched_bench
  | None => None
  end.

Definition main (sched_warmup sched_bench : list action) : option Z :=
  main_with NUM_WORKERS WARMUP_TASKS NUM_TASKS sched_warmup sched_bench.

(** The largest argument for which [heavy_computation] does not wrap. *)
Definition HEAVY_EXACT_MAX : Z := 36930418565985.

(** A worker of [solo_init] about to call [front()]. *)
Definition front_state : @state (option nat) nat :=
  default solo_init
    (run demo_call (replicate 12 (AMain 0) ++ replicate 3 (AWorker 0)) solo_init).

Definition submit_run_state : @state (option nat) nat :=
  default late_init
    (run demo_call (replicate 4 (ACaller 0 0) ++ replicate 7 (AWorker 0))
       late_init).

(** One worker and nothing to do: the worker blocks, the destructor wakes it
    and joins it. *)
Definition empty_sched : list action :=
  replicate 2 (AWorker 0) ++ replicate 4 (AMain 0) ++
  replicate 3 (AWorker 0) ++ replicate 2 (AMain 0).

Definition empty_end : @state (option nat) nat :=
  default (init 1 [] [] 5) (run demo_call empty_sched (init 1 [] [] 5)).
(** * Facts about the model *)

Local Open Scope nat_scope.

Section PoolFacts.

Context {Task Env : Type}.
Variable call : Task → Env → option Env.

Implicit Types (s : @state Task Env) (w : @wpc Task) (ws : list (@wpc Task)).
Implicit Types (script : list Task) (others : list (list Task)) (ini : Env).

(** Case analysis on one step: one goal per source line and branch. *)
Ltac step_cases H :=
  unfold step in H;
  destruct (terminated _ || destroyed _) eqn:Hgo in H; [discriminate H|];
  match type of H with
  | match ?a with _ => _ end = _ => destruct a
  end;
  unfold worker_step, spurious_wake, caller_step, main_step, enqueue_step in H;
  repeat case_match; simplify_eq.

(** *** Induction over schedules *)

Lemma run_app sch1 sch2 s :
  run call (sch1 ++ sch2) s = run call sch1 s ≫= run call sch2.
Proof.
  revert s. induction sch1 as [|a sch1 IH]; intros s; simpl; [done|].
  destruct (step call a s); simpl; auto.
Qed.

Lemma run_invariant (P : @state Task Env → Prop) :
  (∀ a s s', step call a s = Some s' → P s → P s') →
  ∀ sched s s', run call sched s = Some s' → P s → P s'.
Proof.
  intros Hstep sched. induction sched as [|a sched IH]; intros s s' Hrun HP.
  - simpl in Hrun. by simplify_eq.
  - simpl in Hrun. destruct (step call a s) as [s1|] eqn:Hs; [|done].
    eapply IH; eauto.
Qed.

(** *** Notifications only move workers from [WWait] to [WWoken] *)

Lemma wake_first_lookup {B} (f : wpc → B) ws i :
  f WWoken = f WWait → f <$> wake_first ws !! i = f <$> ws !! i.
Proof.
  intros Hf. revert i. induction ws as [|w ws IH]; intros i; [done|].
  destruct w; destruct i; simpl; auto; by rewrite ?Hf.
Qed.

Lemma notify_one_lookup {B} (f : wpc → B) pick ws i :
  f WWoken = f WWait → f <$> notify_one pick ws !! i = f <$> ws !! i.
Proof.
  intros Hf. unfold notify_one.
  destruct (ws !! pick) as [w|] eqn:Hp; [|by apply wake_first_lookup].
  destruct w; try by apply wake_first_lookup.
  destruct (decide (pick = i)) as [->|Hne].
  - rewrite list_lookup_insert_eq by (by eapply lookup_lt_Some).
    rewrite Hp. simpl. by rewrite Hf.
  - by rewrite list_lookup_insert_ne.
Qed.

Lemma notify_all_lookup {B} (f : wpc → B) ws i :
  f WWoken = f WWait → f <$> notify_all ws !! i = f <$> ws !! i.
Proof.
  intros Hf. unfold notify_all. rewrite list_lookup_fmap.
  destruct (ws !! i) as [w|]; [|done]. destruct w; simpl; by rewrite ?Hf.
Qed.

Lemma length_wake_first ws : length (wake_first ws) = length ws.
Proof. induction ws as [|w ws IH]; [done|]. destruct w; simpl; auto. Qed.

Lemma length_notify_one pick ws : length (notify_one pick ws) = length ws.
Proof.
  unfold notify_one. repeat case_match;
    by rewrite ?length_insert, ?length_wake_first.
Qed.

Lemma length_notify_all ws : length (notify_all ws) = length ws.
Proof. unfold notify_all. by rewrite length_fmap. Qed.

(** *** Mutual exclusion *)


Lemma mutex_free_None s : mutex_free s = true → queue_mutex s = None.
Proof. unfold mutex_free. by destruct (queue_mutex s). Qed.

Lemma wake_first_Some ws i w :
  wake_first ws !! i = Some w →
  ∃ w0, ws !! i = Some w0 ∧ (w = w0 ∨ w0 = WWait ∧ w = WWoken).
Proof.
  revert i. induction ws as [|w1 ws IH]; intros i H; [done|].
  destruct i as [|i].
  - destruct w1; simpl in H; simplify_eq; eauto.
  - destruct w1; simpl in H; eauto.
Qed.

Lemma notify_one_Some pick ws i w :
  notify_one pick ws !! i = Some w →
  ∃ w0, ws !! i = Some w0 ∧ (w = w0 ∨ w0 = WWait ∧ w = WWoken).
Proof.
  unfold notify_one. intros H.
  destruct (ws !! pick) as [w1|] eqn:Hp; [|by apply wake_first_Some].
  destruct w1; try by apply wake_first_Some.
  apply list_lookup_insert_Some in H as [(-> & <- & _)|(_ & H)]; eauto.
Qed.

Lemma notify_all_Some ws i w :
  notify_all ws !! i = Some w →
  ∃ w0, ws !! i = Some w0 ∧ (w = w0 ∨ w0 = WWait ∧ w = WWoken).
Proof.
  unfold notify_all. rewrite list_lookup_fmap. intros H.
  destruct (ws !! i) as [w0|]; [|done]. exists w0. split; [done|].
  simpl in H. simplify_eq. destruct w0; auto.
Qed.

(** Normal form of the lookups a step leaves behind. *)
Ltac lookups :=
  repeat match goal with
  | H : <[_:=_]> _ !! _ = Some _ |- _ =>
      apply list_lookup_insert_Some in H as [(? & ? & ?)|(? & H)]
  | H : notify_one _ _ !! _ = Some _ |- _ =>
      apply notify_one_Some in H as (? & H & [?|[? ?]])
  | H : notify_all _ !! _ = Some _ |- _ =>
      apply notify_all_Some in H as (? & H & [?|[? ?]])
  end; simplify_eq.

Lemma lock_inv_step a s s' : step call a s = Some s' → lock_inv s → lock_inv s'.
Proof.
  intros H (Hw & Hc & Hm & Hd).
  step_cases H.
  all: try match goal with Hf : mutex_free _ = true |- _ => apply mutex_free_None in Hf end.
  all: try match goal with Hl : workers _ !! _ = Some _ |- _ =>
         pose proof (Hw _ _ Hl) as Hme; simpl in Hme end.
  all: try match goal with Hl : callers _ !! _ = Some ?c |- _ =>
         pose proof (Hc _ _ Hl) as Hme; destruct c as [pc0 td0]; simpl in *; subst end.
  all: try match goal with Hl : main_c _ = _ |- _ =>
         rewrite Hl in Hm; simpl in Hm end.
  all: try match goal with Hl : main_d _ = _ |- _ =>
         rewrite Hl in Hm, Hd; simpl in Hm end.
  all: rewrite ?orb_true_r in Hm.
  all: try specialize (Hme eq_refl).
  all: try specialize (Hm eq_refl).
  all: (split; [|split; [|split]]); simpl.
  all: repeat match goal with
       | Hl : main_d _ = _ |- _ => rewrite Hl
       | Hl : main_c _ = _ |- _ => rewrite Hl
       end.
  all: try rewrite Hd by congruence.
  all: try (intros i' w' Hl' Hh'; lookups; simpl in *; try done;
            try (specialize (Hw _ _ Hl' Hh'));
            try (specialize (Hc _ _ Hl' Hh')); simpl in *; congruence).
  all: try (intros Hh'; simpl in *; try done; try specialize (Hm Hh'); congruence).
  all: try (intros; first [done|congruence|apply Hd; congruence]).
Qed.

(** *** The queue and the submission history *)


Lemma is_empty_false {A} (l : list A) : is_empty l = false ↔ l ≠ [].
Proof. by destruct l. Qed.

Lemma is_empty_true {A} (l : list A) : is_empty l = true ↔ l = [].
Proof. by destruct l. Qed.

(** What the mutual exclusion invariant says about the threads named in the
    context. *)
Ltac owners Hw Hc :=
  repeat match goal with
  | Hl : workers _ !! ?i = Some ?w |- _ =>
      lazymatch goal with
      | _ : queue_mutex _ = Some (Worker i) |- _ => fail
      | _ => let Hn := fresh "Hown" in
             assert (queue_mutex _ = Some (Worker i)) as Hn
               by (apply (Hw _ _ Hl); reflexivity)
      end
  | Hl : callers _ !! ?j = Some ?c |- _ =>
      lazymatch goal with
      | _ : queue_mutex _ = Some (Caller j) |- _ => fail
      | _ => let Hn := fresh "Hown" in
             assert (queue_mutex _ = Some (Caller j)) as Hn
               by (apply (Hc _ _ Hl); reflexivity)
      end
  end.

Lemma queue_inv_step a s s' :
  step call a s = Some s' → lock_inv s → queue_inv s → queue_inv s'.
Proof.
  intros H (Hw & Hc & Hm & Hd) (Hsub & Hpop & Hfront & Htest).
  step_cases H.
  all: try match goal with Hl : main_c _ = _ |- _ =>
         rewrite Hl in Hm; simpl in Hm end.
  all: try match goal with Hl : main_d _ = _ |- _ =>
         rewrite Hl in Hm, Hd; simpl in Hm end.
  all: rewrite ?orb_true_r in Hm.
  all: try specialize (Hm eq_refl).
  all: (split; [|split; [|split]]); simpl.
  all: try match goal with Ht : tasks _ = _ |- _ => rewrite ?Ht end.
  all: try (rewrite Hsub; simpl; by rewrite ?rev_app_distr, <- ?app_assoc).
  all: try done.
  all: try (intros i'; intros; lookups; try done; owners Hw Hc; try congruence; eauto; fail).
  all: try (intros i0 Hl; lookups; eauto;
            match goal with Hp : _ || negb _ = true |- _ =>
              apply orb_true_iff in Hp as [?|Hne]; [by left|right];
              by apply negb_true_iff, is_empty_false in Hne end).
  all: try (intros i0 Hl; lookups; eauto;
            match goal with Hx : workers _ !! _ = Some WTest |- _ =>
              destruct (Htest _ Hx) as [Hs|?]; [|done];
              rewrite Hs in *; by apply is_empty_false end).
  all: try (intros i0 e0 Hl; lookups; eauto; fail).
  all: try (intros i0 e0 Hl; destruct (tasks s) eqn:E; simpl; eauto;
            by specialize (Hpop _ _ Hl)).
  all: try (intros i0 Hl Hn; by apply app_eq_nil in Hn as [_ ?]).
  all: try (intros i0 Hl; right; intros Hn; by apply app_eq_nil in Hn as [_ ?]).
Qed.

(** *** Serial numbers *)

Lemma numbered_lt (l : list (@entry Task)) e : numbered l → e ∈ l → fst e < length l.
Proof.
  induction l as [|x l IH]; intros Hn He; [by apply elem_of_nil in He|].
  destruct Hn as [Hx Hn]. apply elem_of_cons in He as [->|He]; simpl.
  - lia.
  - specialize (IH Hn He). lia.
Qed.

Lemma numbered_NoDup (l : list (@entry Task)) : numbered l → NoDup (fst <$> l).
Proof.
  induction l as [|x l IH]; intros Hn; [constructor|].
  destruct Hn as [Hx Hn]. simpl. constructor; [|auto].
  intros Hin. apply list_elem_of_fmap in Hin as (e & He & Hin).
  pose proof (numbered_lt l e Hn Hin). lia.
Qed.

Lemma numbered_step a s s' :
  step call a s = Some s' → numbered (submitted s) → numbered (submitted s').
Proof. intros H Hn. step_cases H; simpl; auto. Qed.

(** *** Entries removed from the queue are in flight or executed *)

Lemma held_insert ws i w w' :
  ws !! i = Some w →
  ∃ l1 l2, ws ≫= held = l1 ++ held w ++ l2 ∧
           <[i:=w']> ws ≫= held = l1 ++ held w' ++ l2.
Proof.
  revert i. induction ws as [|x ws IH]; intros i Hi; [done|].
  destruct i as [|i]; simpl in Hi.
  - simplify_eq. by exists [], (ws ≫= held).
  - destruct (IH _ Hi) as (l1 & l2 & E1 & E2).
    exists (held x ++ l1), l2.
    change (<[S i:=w']> (x :: ws)) with (x :: <[i:=w']> ws).
    rewrite !bind_cons, E1, E2. by rewrite <- !app_assoc.
Qed.

Lemma held_wake_first ws : wake_first ws ≫= held = ws ≫= held.
Proof.
  induction ws as [|x ws IH]; [done|].
  destruct x; simpl wake_first; rewrite ?bind_cons, ?IH; done.
Qed.

Lemma held_notify_one pick ws : notify_one pick ws ≫= held = ws ≫= held.
Proof.
  unfold notify_one. destruct (ws !! pick) as [w|] eqn:Hp; [|apply held_wake_first].
  destruct w; try apply held_wake_first.
  destruct (held_insert ws pick WWait WWoken Hp) as (l1 & l2 & E1 & E2).
  by rewrite E1, E2.
Qed.

Lemma held_notify_all ws : notify_all ws ≫= held = ws ≫= held.
Proof.
  unfold notify_all. induction ws as [|x ws IH]; [done|].
  rewrite fmap_cons, !bind_cons, IH. by destruct x.
Qed.


Lemma flight_inv_step a s s' :
  step call a s = Some s' → queue_inv s → flight_inv s → flight_inv s'.
Proof.
  unfold flight_inv, in_flight.
  intros H (Hsub & Hpop & Hfront & Htest) Hf.
  step_cases H; simpl.
  all: rewrite ?held_notify_one, ?held_notify_all; try done.
  all: match goal with Hl : workers _ !! ?i = Some ?w |- context [<[?i:=?w']> _] =>
         destruct (held_insert _ i w w' Hl) as (l1 & l2 & E1 & E2);
         rewrite E2; rewrite E1 in Hf; simpl in *; try done end.
  all: try match goal with Hl : workers _ !! _ = Some (WPop _) |- _ =>
         specialize (Hpop _ _ Hl); simpl in Hpop; simplify_eq end.
  all: rewrite Hf, <- ?app_assoc; simpl; by rewrite <- ?Permutation_middle.
Qed.

(** *** The shutdown flag, exits and joins *)


Lemma not_destroyed s : terminated s || destroyed s = false → main_d s ≠ DDone.
Proof.
  intros H Hd. apply orb_false_iff in H as [_ H]. unfold destroyed in H.
  by rewrite Hd in H.
Qed.

Lemma suffix_elem {A} (l k m : list A) x : l = k ++ m → x ∈ m → x ∈ l.
Proof. intros -> ?. apply elem_of_app. by right. Qed.

Lemma notify_one_exit pick ws i :
  ws !! i = Some WExit → notify_one pick ws !! i = Some WExit.
Proof.
  intros H. pose proof (notify_one_lookup wake pick ws i eq_refl) as E.
  rewrite H in E. destruct (notify_one pick ws !! i) as [x|]; [|done].
  simpl in E. destruct x; by simplify_eq.
Qed.

Lemma notify_all_exit ws i :
  ws !! i = Some WExit → notify_all ws !! i = Some WExit.
Proof. intros H. unfold notify_all. by rewrite list_lookup_fmap, H. Qed.

Lemma stop_inv_step a s s' :
  step call a s = Some s' → numbered (submitted s) → stop_inv s → stop_inv s'.
Proof.
  intros H Hnum (Hfalse & Htrue & Hexit & Hjoin & Hdone).
  step_cases H.
  all: pose proof (not_destroyed _ Hgo) as Hnd.
  all: (split; [|split; [|split; [|split]]]); simpl.
  all: try match goal with Ht : tasks _ = _ |- _ => rewrite ?Ht end.
  all: try done.
  (* joins *)
  all: try (intros k Hk i' Hi'; simplify_eq; specialize (Hjoin _ Hk _ Hi');
            first [ rewrite list_lookup_insert_ne by congruence; done
                  | rewrite <- Hjoin; apply (f_equal (fmap id)) ]; fail).
  (* the destructor has not returned *)
  all: try (intros Hk; congruence).
  (* flag not set *)
  all: try (intros Hs; destruct (Hfalse Hs) as [Hmd Hne];
            (split; [try done; try (destruct Hmd; congruence); auto
                    |try done; intros i' Hl'; lookups; try by eapply Hne]); fail).
  (* flag set *)
  all: try (intros Hs; destruct (Htrue Hs) as (? & ? & lpre & Hpre);
            (split; [|split]); try congruence; try (by exists lpre);
            try (eexists (_ :: lpre); by rewrite Hpre); fail).
  all: try (intros _; (split; [|split]); try done; by exists []).
  all: try (intros Hs; rewrite Hs in *; done).
  (* a worker has returned *)
  all: try (intros [i' Hl'] ? He; lookups;
            first [ eapply Hexit; [by eexists|first [done|by apply elem_of_cons; right]]
                  | match goal with
                    | Hx : _ && is_empty _ = true |- _ =>
                        apply andb_true_iff in Hx as [_ Hx];
                        apply is_empty_true in Hx; rewrite Hx in He;
                        by apply elem_of_nil in He
                    end ]; fail).
  (* an entry placed in the queue after a worker has returned *)
  all: try (intros Hex ? He; apply elem_of_app in He as [He|He];
            [by eapply Hexit|];
            apply list_elem_of_singleton in He; subst;
            destruct (stop s) eqn:Hs;
            [ destruct (Htrue eq_refl) as (? & ? & lpre & Hpre); intros Hin;
              pose proof (numbered_lt _ _ Hnum (suffix_elem _ _ _ _ Hpre Hin));
              simpl in *; lia
            | destruct Hex as [? Hex]; by apply (proj2 (Hfalse eq_refl)) in Hex ]; fail).
  - intros k Hk i' Hi'. apply notify_one_exit. eauto.
  - intros [i' Hex]. destruct (stop s) eqn:Hs.
    + destruct (Htrue eq_refl) as (_ & ? & _). congruence.
    + by apply (proj2 (Hfalse eq_refl)) in Hex.
  - intros k Hk i' Hi'. simplify_eq. lia.
  - intros k0 Hk i' Hi'. simplify_eq.
    destruct (decide (i' = k)) as [->|Hne]; [done|].
    apply (Hjoin k eq_refl). lia.
  - intros _ i' w Hl'.
    match goal with Hn : workers s !! ?k = None |- _ =>
      apply lookup_ge_None in Hn; pose proof (lookup_lt_Some _ _ _ Hl') as Hlt;
      rewrite (Hjoin k eq_refl i') in Hl' by lia end.
    by simplify_eq.
Qed.

(** *** The vector of workers keeps its size *)

Lemma step_length_workers a s s' :
  step call a s = Some s' → length (workers s') = length (workers s).
Proof.
  intros H. step_cases H; simpl;
    by rewrite ?length_insert, ?length_notify_one, ?length_notify_all.
Qed.

Lemma step_length_callers a s s' :
  step call a s = Some s' → length (callers s') = length (callers s).
Proof. intros H. step_cases H; simpl; by rewrite ?length_insert. Qed.

(** *** All invariants together *)


Lemma inv_step a s s' : step call a s = Some s' → inv s → inv s'.
Proof.
  intros H (Hl & Hq & Hn & Hf & Hs).
  split; [by eapply lock_inv_step|].
  split; [by eapply queue_inv_step|].
  split; [by eapply numbered_step|].
  split; [by eapply flight_inv_step|by eapply stop_inv_step].
Qed.

Lemma inv_init n script others ini : inv (init n script others ini).
Proof.
  unfold init. split; [|split; [|split; [|split]]].
  - split; [|split; [|split]]; simpl; try done.
    + intros i w Hl Hh. apply lookup_replicate_1 in Hl as [-> _]. discriminate Hh.
    + intros j c Hl Hh. rewrite list_lookup_fmap in Hl.
      destruct (others !! j); simpl in *; simplify_eq.
  - split; [|split; [|split]]; simpl; try done.
    all: intros i; intros; match goal with Hl : replicate _ _ !! _ = Some _ |- _ =>
           by apply lookup_replicate_1 in Hl as [? _] end.
  - done.
  - unfold flight_inv, in_flight. simpl.
    induction n as [|n IH]; [done|]. by cbn.
  - split; [|split; [|split; [|split]]]; simpl; try done.
    + intros _. split; [by left|]. intros i Hl.
      by apply lookup_replicate_1 in Hl as [? _].
    + intros [i Hl]. by apply lookup_replicate_1 in Hl as [? _].
Qed.

Lemma inv_run n script others ini sched s :
  run call sched (init n script others ini) = Some s → inv s.
Proof.
  intros H. eapply (run_invariant (λ s, inv s)); eauto using inv_step, inv_init.
Qed.

Lemma run_length_workers n script others ini sched s :
  run call sched (init n script others ini) = Some s → length (workers s) = n.
Proof.
  intros H.
  eapply (run_invariant (λ s, length (workers s) = n)); eauto.
  - intros a s1 s2 Hs <-. by eapply step_length_workers.
  - simpl. by rewrite length_replicate.
Qed.

Lemma run_length_callers n script others ini sched s :
  run call sched (init n script others ini) = Some s →
  length (callers s) = length others.
Proof.
  intros H.
  eapply (run_invariant (λ s, length (callers s) = length others)); eauto.
  - intros a s1 s2 Hs <-. by eapply step_length_callers.
  - simpl. by rewrite length_fmap.
Qed.

(** *** Consequences at the end of the destructor *)

Lemma elem_of_rev {A} (l : list A) x : x ∈ rev l ↔ x ∈ l.
Proof. rewrite !list_elem_of_In. symmetry. apply in_rev. Qed.

Lemma all_exit_in_flight ws :
  (∀ i w, ws !! i = Some w → w = WExit) → ws ≫= held = [].
Proof.
  induction ws as [|x ws IH]; intros H; [done|].
  rewrite bind_cons, IH; [|intros i w Hl; by apply (H (S i))].
  by rewrite (H 0 x eq_refl).
Qed.

Lemma executed_NoDup s : inv s → NoDup (fst <$> executed s).
Proof.
  intros (_ & (Hsub & _) & Hn & Hf & _).
  apply numbered_NoDup in Hn. rewrite Hsub, fmap_app in Hn.
  apply NoDup_app in Hn as (_ & _ & Hn).
  unfold flight_inv in Hf. rewrite Hf, fmap_app in Hn.
  by apply NoDup_app in Hn as (_ & _ & Hn).
Qed.

Lemma drained s :
  inv s → 0 < length (workers s) → main_d s = DDone →
  (∀ i w, workers s !! i = Some w → w = WExit) ∧
  stop s = true ∧ in_flight s = [] ∧
  (∀ e, e ∈ pre_stop s → e ∈ executed s).
Proof.
  intros (_ & (Hsub & _) & Hn & Hf & Hfalse & Htrue & Hexit & _ & Hdone) Hlen Hd.
  specialize (Hdone Hd).
  assert (stop s = true) as Hs.
  { destruct (stop s); [done|]. destruct (Hfalse eq_refl) as [[?|?] _]; congruence. }
  assert (in_flight s = []) as Hfl by by apply all_exit_in_flight.
  repeat split; auto.
  intros e He. destruct (Htrue Hs) as (_ & _ & l & Hl).
  destruct (lookup_lt_is_Some_2 (workers s) 0 Hlen) as [w0 Hw0].
  pose proof (Hdone _ _ Hw0) as ->.
  assert (e ∈ submitted s) as Hin by by eapply suffix_elem.
  rewrite Hsub in Hin. apply elem_of_app in Hin as [Hin|Hin].
  - apply (proj1 (elem_of_rev _ _)) in Hin. exfalso.
    apply (Hexit (ex_intro _ 0 Hw0) e Hin He).
  - unfold flight_inv in Hf. rewrite Hf, Hfl in Hin. done.
Qed.

(** *** The shared state is the replay of the executed entries *)

Lemma replay_inv_step ini a s s' :
  step call a s = Some s' → replay_inv call ini s → replay_inv call ini s'.
Proof.
  unfold replay_inv. intros H Hr. step_cases H; simpl; try done.
  rewrite Hr. simpl. done.
Qed.

Lemma replay_run n script others ini sched s :
  run call sched (init n script others ini) = Some s →
  replay call ini (executed s) = Some (env s).
Proof.
  intros H. eapply (run_invariant (λ s, replay_inv call ini s)); eauto.
  - intros; by eapply replay_inv_step.
  - reflexivity.
Qed.

(** *** A single submitting thread *)

Lemma script_inv_step script a s s' :
  step call a s = Some s' → lock_inv s → stop_inv s →
  script_inv script s → script_inv script s'.
Proof.
  unfold script_inv.
  intros H (_ & _ & _ & Hd) (Hfalse & Htrue & _) Hsc.
  step_cases H; simpl; intros Hcs.
  all: try (apply (f_equal length) in Hcs; rewrite length_insert in Hcs;
            match goal with Hl : callers _ !! _ = Some _ |- _ =>
              apply lookup_lt_Some in Hl; simpl in *; lia end).
  all: destruct (Hsc Hcs) as [Hscript Hpre]; clear Hsc.
  all: repeat match goal with Hl : main_c _ = _ |- _ =>
         rewrite Hl in *; clear Hl end.
  all: unfold pending in *; simpl in *.
  all: try (split; assumption).
  all: try (split; [done|]; intros Hs; try done;
            destruct (Htrue Hs) as (? & ? & _); congruence).
  all: simplify_eq.
  all: split; [by rewrite <- ?app_assoc|].
  all: intros Hs; destruct (Htrue Hs) as (? & ? & _); congruence.
Qed.

Lemma script_run n script ini sched s :
  run call sched (init n script [] ini) = Some s →
  rev (snd <$> submitted s) ++ pending (main_c s) = script ∧
  (stop s = true → pre_stop s = submitted s).
Proof.
  intros H.
  assert (callers s = []) as Hcs.
  { apply length_zero_iff_nil. by rewrite (run_length_callers _ _ _ _ _ _ H). }
  revert Hcs.
  eapply (run_invariant (λ s, inv s ∧ script_inv script s)); eauto.
  - intros a s1 s2 Hst [Hi Hsc]. split; [by eapply inv_step|].
    destruct Hi as (? & _ & _ & _ & ?). by eapply script_inv_step.
  - split; [apply inv_init|]. intros _. split; [done|]. simpl. done.
Qed.

Lemma script_mem_inv_step script a s s' :
  step call a s = Some s' → lock_inv s → stop_inv s →
  script_mem_inv script s → script_mem_inv script s'.
Proof.
  unfold script_mem_inv.
  intros H (_ & _ & _ & Hd) (Hfalse & Htrue & _) [Hmem Hpre].
  step_cases H; simpl; (split; [|try done]).
  all: repeat match goal with Hl : main_c _ = _ |- _ =>
         rewrite Hl in *; clear Hl end.
  all: unfold pending in *; simpl in *; try done.
  all: try (intros t' Ht'; destruct (Hmem _ Ht') as [Hin|Hin]; [left|];
            rewrite ?elem_of_cons in *; simplify_eq; intuition eauto; fail).
  intros _ t' Ht'. destruct (Hmem _ Ht') as [Hin|Hin]; [done|].
  rewrite Hd in Hin by done. simpl in Hin. by apply elem_of_nil in Hin.
Qed.

Lemma script_mem_run n script others ini sched s :
  run call sched (init n script others ini) = Some s →
  stop s = true → ∀ t, t ∈ script → t ∈ snd <$> pre_stop s.
Proof.
  intros H.
  eapply (run_invariant (λ s, inv s ∧ script_mem_inv script s)); eauto.
  - intros a s1 s2 Hst [Hi Hsc]. split; [by eapply inv_step|].
    destruct Hi as (? & _ & _ & _ & ?). by eapply script_mem_inv_step.
  - split; [apply inv_init|]. split; [|done]. intros t Ht. by right.
Qed.

(** *** A single worker *)

Lemma fifo_inv_step a s s' :
  step call a s = Some s' → queue_inv s → fifo_inv s → fifo_inv s'.
Proof.
  unfold fifo_inv. intros H (_ & Hpop & _) Hf.
  step_cases H; simpl; intros w1 Hw1; auto.
  all: try match goal with Hl : workers _ !! _ = Some (WPop _) |- _ =>
         specialize (Hpop _ _ Hl); simpl in Hpop; simplify_eq end.
  all: try (match goal with
            | Hl : workers ?st !! ?i = Some _, Hn : <[_:=_]> _ = [_] |- _ =>
                pose proof (f_equal length Hn) as El;
                rewrite length_insert in El;
                destruct (workers st) as [|w0 [|]]; simplify_eq;
                destruct i; simpl in *; simplify_eq;
                pose proof (Hf _ eq_refl) as Hf'; simpl in *;
                first [exact Hf'|f_equal; exact Hf']
            end).
  all: match goal with
       | Hn : notify_one ?p ?ws = [_] |- _ =>
           pose proof (held_notify_one p ws) as E;
           pose proof (length_notify_one p ws) as El
       | Hn : notify_all ?ws = [_] |- _ =>
           pose proof (held_notify_all ws) as E;
           pose proof (length_notify_all ws) as El
       end.
  all: rewrite Hw1 in E, El.
  all: destruct (workers s) as [|w0 [|]]; simplify_eq.
  all: cbn in E; rewrite !app_nil_r in E; rewrite E; by apply Hf.
Qed.

Lemma fifo_run n script others ini sched s :
  run call sched (init n script others ini) = Some s → fifo_inv s.
Proof.
  intros H.
  eapply (run_invariant (λ s, inv s ∧ fifo_inv s)); eauto.
  - intros a s1 s2 Hst [Hi Hsc]. split; [by eapply inv_step|].
    destruct Hi as (_ & ? & _). by eapply fifo_inv_step.
  - split; [apply inv_init|]. intros w Hw.
    destruct n as [|[|]]; simpl in *; simplify_eq. reflexivity.
Qed.

Lemma single_producer_done n script ini sched s :
  0 < n →
  run call sched (init n script [] ini) = Some s →
  main_d s = DDone →
  tasks s = [] ∧ snd <$> executed s ≡ₚ script ∧
  rev (snd <$> submitted s) = script.
Proof.
  intros Hn Hrun Hd.
  pose proof (inv_run _ _ _ _ _ _ Hrun) as Hinv.
  pose proof (run_length_workers _ _ _ _ _ _ Hrun) as Hlen.
  assert (0 < length (workers s)) as Hpos by lia.
  destruct (drained s Hinv Hpos Hd) as (Hall & Hs & Hfl & Hex).
  destruct (script_run _ _ _ _ _ Hrun) as [Hscript Hpre].
  specialize (Hpre Hs).
  destruct Hinv as ((_ & _ & _ & Hmc) & (Hsub & _) & Hnum & Hf & _ & _ & Hexit & _).
  rewrite Hmc in Hscript by congruence. unfold pending in Hscript.
  simpl in Hscript. rewrite app_nil_r in Hscript.
  assert (tasks s = []) as Ht.
  { destruct (tasks s) as [|e q] eqn:Et; [done|]. exfalso.
    destruct (lookup_lt_is_Some_2 (workers s) 0 Hpos) as [w0 Hw0].
    pose proof (Hall _ _ Hw0) as ->.
    apply (Hexit (ex_intro _ 0 Hw0) e); [by left|].
    rewrite Hpre, Hsub. apply elem_of_app. left.
    apply elem_of_rev. by left. }
  split; [done|]. split; [|done].
  unfold flight_inv in Hf. rewrite Hfl in Hf. simpl in Hf.
  rewrite <- Hscript, Hsub, Ht. simpl.
  rewrite <- Permutation_rev. by rewrite Hf.
Qed.

Lemma NoDup_fmap_eq {A B} (f : A → B) (l : list A) x y :
  NoDup (f <$> l) → x ∈ l → y ∈ l → f x = f y → x = y.
Proof.
  induction l as [|z l IH]; intros Hnd Hx Hy Hf; [by apply elem_of_nil in Hx|].
  rewrite fmap_cons in Hnd. apply NoDup_cons in Hnd as [Hz Hnd].
  apply elem_of_cons in Hx as [->|Hx]; apply elem_of_cons in Hy as [->|Hy]; auto.
  - exfalso. apply Hz. rewrite Hf. by apply list_elem_of_fmap_2.
  - exfalso. apply Hz. rewrite <- Hf. by apply list_elem_of_fmap_2.
Qed.

Lemma claimed_NoDup s : inv s → NoDup (fst <$> (snd <$> claimed s)).
Proof.
  intros (_ & (Hsub & _) & Hn & _).
  apply numbered_NoDup in Hn. rewrite Hsub, fmap_app in Hn.
  by apply NoDup_app in Hn as (_ & _ & Hn).
Qed.

Lemma claimed_not_queued s e : inv s → e ∈ snd <$> claimed s → e ∉ tasks s.
Proof.
  intros (_ & (Hsub & _) & Hn & _) Hc Hq.
  apply numbered_NoDup in Hn. rewrite Hsub, fmap_app in Hn.
  apply NoDup_app in Hn as (_ & Hdis & _).
  apply (Hdis (fst e)).
  - apply list_elem_of_fmap_2. by apply elem_of_rev.
  - by apply list_elem_of_fmap_2.
Qed.

(** *** One uninterrupted call of enqueue *)

Lemma wake_first_wakes ws :
  (∃ i, ws !! i = Some WWait) →
  ∃ i, ws !! i = Some WWait ∧ wake_first ws !! i = Some WWoken.
Proof.
  induction ws as [|w ws IH]; intros [i Hi]; [done|].
  destruct i as [|i]; simpl in Hi.
  - simplify_eq. by exists 0.
  - destruct IH as (k & Hk & Hk'); [eauto|].
    destruct w; try (by exists (S k)). by exists 0.
Qed.

Lemma notify_one_wakes pick ws :
  (∃ i, ws !! i = Some WWait) →
  ∃ i, ws !! i = Some WWait ∧ notify_one pick ws !! i = Some WWoken.
Proof.
  intros Hex. unfold notify_one.
  destruct (ws !! pick) as [w|] eqn:Hp; [|by apply wake_first_wakes].
  destruct w; try by apply wake_first_wakes.
  exists pick. split; [done|].
  apply list_lookup_insert_eq. by eapply lookup_lt_Some.
Qed.

Lemma wake_first_others ws i w :
  ws !! i = Some w → w ≠ WWait → wake_first ws !! i = Some w.
Proof.
  revert i. induction ws as [|x ws IH]; intros i Hi Hne; [done|].
  destruct i as [|i]; simpl in Hi.
  - simplify_eq. by destruct w.
  - destruct x; simpl; eauto.
Qed.

Lemma notify_one_others pick ws i w :
  ws !! i = Some w → w ≠ WWait → notify_one pick ws !! i = Some w.
Proof.
  intros Hi Hne. unfold notify_one.
  destruct (ws !! pick) as [x|] eqn:Hp; [|by apply wake_first_others].
  destruct x; try by apply wake_first_others.
  rewrite list_lookup_insert_ne; [done|]. intros ->. congruence.
Qed.

Lemma caller_step_eq s j pick c :
  terminated s = false → destroyed s = false →
  callers s !! j = Some c →
  step call (ACaller j pick) s =
  match enqueue_step (Caller j) pick c s with
  | Some (c', s') => Some (set_callers (<[j:=c']> (callers s')) s')
  | None => None
  end.
Proof.
  intros Ht Hdd Hc. unfold step. rewrite Ht, Hdd. simpl.
  unfold caller_step. by rewrite Hc.
Qed.

Lemma enqueue_call_spec s j pick t rest :
  terminated s = false → destroyed s = false →
  queue_mutex s = None →
  callers s !! j = Some (MkCaller CCall (t :: rest)) →
  enqueue_call call j pick s =
  Some (set_callers (<[j:=MkCaller CCall rest]> (callers s))
         (set_workers (notify_one pick (workers s))
           (log_submitted (length (submitted s), t)
             (set_tasks (tasks s ++ [(length (submitted s), t)])
               (set_mutex None s))))).
Proof.
  intros Ht Hdd Hm Hc. pose proof (lookup_lt_Some _ _ _ Hc) as Hlt.
  set (e := (length (submitted s), t)).
  set (s1 := set_callers (<[j:=MkCaller (CEmplace t) rest]> (callers s))
               (set_mutex (Some (Caller j)) s)).
  set (s2 := set_callers (<[j:=MkCaller CUnlock rest]> (callers s1))
               (log_submitted e (set_tasks (tasks s1 ++ [e]) s1))).
  set (s3 := set_callers (<[j:=MkCaller CNotify rest]> (callers s2))
               (set_mutex None s2)).
  set (s4 := set_callers (<[j:=MkCaller CCall rest]> (callers s3))
               (set_workers (notify_one pick (workers s3)) s3)).
  assert (step call (ACaller j pick) s = Some s1) as H1.
  { rewrite (caller_step_eq s j pick _ Ht Hdd Hc).
    unfold enqueue_step, mutex_free. simpl. by rewrite Hm. }
  assert (step call (ACaller j pick) s1 = Some s2) as H2.
  { rewrite (caller_step_eq s1 j pick (MkCaller (CEmplace t) rest) Ht Hdd);
      [done|]. by apply list_lookup_insert_eq. }
  assert (step call (ACaller j pick) s2 = Some s3) as H3.
  { rewrite (caller_step_eq s2 j pick (MkCaller CUnlock rest) Ht Hdd);
      [done|]. apply list_lookup_insert_eq. simpl. by rewrite length_insert. }
  assert (step call (ACaller j pick) s3 = Some s4) as H4.
  { rewrite (caller_step_eq s3 j pick (MkCaller CNotify rest) Ht Hdd);
      [done|]. apply list_lookup_insert_eq. simpl. by rewrite !length_insert. }
  unfold enqueue_call. cbn [replicate run]. rewrite H1, H2, H3, H4.
  f_equal. unfold s4, s3, s2, s1. destruct s. cbn.
  by rewrite !list_insert_insert_eq.
Qed.

(** *** The owning thread running alone *)

Lemma main_step_eq s pick :
  terminated s = false → destroyed s = false →
  step call (AMain pick) s = main_step pick s.
Proof. intros Ht Hdd. unfold step. by rewrite Ht, Hdd. Qed.

Lemma main_alone_add k1 k2 s :
  main_alone call (k1 + k2) s = main_alone call k1 s ≫= main_alone call k2.
Proof. unfold main_alone. by rewrite replicate_add, run_app. Qed.

Lemma main_enqueue_alone s t rest :
  terminated s = false → main_d s = DLive → queue_mutex s = None →
  main_c s = MkCaller CCall (t :: rest) →
  main_alone call 4 s =
  Some (set_main_c (MkCaller CCall rest)
         (set_workers (notify_one 0 (workers s))
           (log_submitted (length (submitted s), t)
             (set_tasks (tasks s ++ [(length (submitted s), t)])
               (set_mutex None s))))).
Proof.
  intros Ht Hd Hm Hc.
  assert (destroyed s = false) as Hdd by (unfold destroyed; by rewrite Hd).
  set (e := (length (submitted s), t)).
  set (s1 := set_main_c (MkCaller (CEmplace t) rest) (set_mutex (Some Main) s)).
  set (s2 := set_main_c (MkCaller CUnlock rest)
               (log_submitted e (set_tasks (tasks s1 ++ [e]) s1))).
  set (s3 := set_main_c (MkCaller CNotify rest) (set_mutex None s2)).
  set (s4 := set_main_c (MkCaller CCall rest)
               (set_workers (notify_one 0 (workers s3)) s3)).
  assert (step call (AMain 0) s = Some s1) as H1.
  { rewrite main_step_eq by done. unfold main_step, enqueue_step, mutex_free.
    by rewrite Hd, Hc, Hm. }
  assert (step call (AMain 0) s1 = Some s2) as H2.
  { rewrite main_step_eq by done. unfold main_step. simpl. by rewrite Hd. }
  assert (step call (AMain 0) s2 = Some s3) as H3.
  { rewrite main_step_eq by done. unfold main_step. simpl. by rewrite Hd. }
  assert (step call (AMain 0) s3 = Some s4) as H4.
  { rewrite main_step_eq by done. unfold main_step. simpl. by rewrite Hd. }
  unfold main_alone. cbn [replicate run]. by rewrite H1, H2, H3, H4.
Qed.

Lemma run_step_Some a l s s1 :
  step call a s = Some s1 → run call (a :: l) s = run call l s1.
Proof. intros H. simpl. by rewrite H. Qed.

Lemma main_begin_destructor s :
  terminated s = false → main_d s = DLive → queue_mutex s = None →
  main_c s = MkCaller CCall [] →
  step call (AMain 0) s = Some (set_main_d DSet (set_mutex (Some Main) s)).
Proof.
  intros Ht Hd Hm Hc. unfold step, destroyed, main_step, mutex_free.
  by rewrite Ht, Hd, Hc, Hm.
Qed.

Lemma main_set_flag s :
  terminated s = false → main_d s = DSet →
  step call (AMain 0) s =
  Some (set_main_d DUnlock (mark_stop (set_stop true s))).
Proof. intros Ht Hd. unfold step, destroyed, main_step. by rewrite Ht, Hd. Qed.

Lemma main_unlock s :
  terminated s = false → main_d s = DUnlock →
  step call (AMain 0) s = Some (set_main_d DNotify (set_mutex None s)).
Proof. intros Ht Hd. unfold step, destroyed, main_step. by rewrite Ht, Hd. Qed.

Lemma main_notify_all s :
  terminated s = false → main_d s = DNotify →
  step call (AMain 0) s =
  Some (set_main_d (DJoin 0) (set_workers (notify_all (workers s)) s)).
Proof. intros Ht Hd. unfold step, destroyed, main_step. by rewrite Ht, Hd. Qed.

Lemma main_join_end s k :
  terminated s = false → main_d s = DJoin k → workers s !! k = None →
  step call (AMain 0) s = Some (set_main_d DDone s).
Proof.
  intros Ht Hd Hk. unfold step, destroyed, main_step. by rewrite Ht, Hd, Hk.
Qed.

Lemma main_join_one s k :
  terminated s = false → main_d s = DJoin k → workers s !! k = Some WExit →
  step call (AMain 0) s = Some (set_main_d (DJoin (S k)) s).
Proof.
  intros Ht Hd Hk. unfold step, destroyed, main_step. by rewrite Ht, Hd, Hk.
Qed.

Lemma main_destructor_alone s :
  terminated s = false → main_d s = DLive → queue_mutex s = None →
  main_c s = MkCaller CCall [] → workers s = [] →
  ∃ s', main_alone call 5 s = Some s' ∧
    main_d s' = DDone ∧ workers s' = [] ∧ tasks s' = tasks s ∧
    executed s' = executed s.
Proof.
  intros Ht Hd Hm Hc Hw. eexists. split.
  - unfold main_alone. cbn [replicate].
    erewrite run_step_Some; [|by apply main_begin_destructor].
    erewrite run_step_Some; [|by apply main_set_flag].
    erewrite run_step_Some; [|by apply main_unlock].
    erewrite run_step_Some; [|by apply main_notify_all].
    erewrite run_step_Some; [reflexivity|].
    apply (main_join_end _ 0); [done|done|]. cbn. by rewrite Hw.
  - cbn. by rewrite Hw.
Qed.

Lemma no_worker_main_alone (todo : list Task) : ∀ s,
  terminated s = false → main_d s = DLive → queue_mutex s = None →
  main_c s = MkCaller CCall todo → workers s = [] →
  ∃ s', main_alone call (4 * length todo + 5) s = Some s' ∧
    main_d s' = DDone ∧ workers s' = [] ∧
    snd <$> tasks s' = (snd <$> tasks s) ++ todo ∧
    executed s' = executed s.
Proof.
  induction todo as [|t todo IH]; intros s Ht Hd Hm Hc Hw.
  - destruct (main_destructor_alone s) as (s' & Hrun & ? & ? & Hq & ?);
      try done.
    exists s'. split; [done|]. split; [done|]. split; [done|].
    split; [|done]. by rewrite Hq, app_nil_r.
  - replace (4 * length (t :: todo) + 5) with (4 + (4 * length todo + 5))
      by (simpl; lia).
    rewrite main_alone_add, (main_enqueue_alone s t todo) by done.
    cbn [mbind option_bind].
    match goal with |- ∃ _, main_alone _ _ ?s1 = _ ∧ _ =>
      destruct (IH s1) as (s' & Hrun & Hdone & Hws & Hq & Hex) end;
      try done.
    { simpl. by rewrite Hw. }
    exists s'. split; [done|]. split; [done|]. split; [done|].
    split; [|done]. rewrite Hq. simpl. rewrite fmap_app. simpl.
    by rewrite <- app_assoc.
Qed.

Lemma no_worker_step a s s' :
  step call a s = Some s' →
  workers s = [] ∧ executed s = [] ∧ claimed s = [] →
  workers s' = [] ∧ executed s' = [] ∧ claimed s' = [].
Proof.
  intros H (Hw & He & Hc).
  step_cases H; simpl; rewrite ?Hw in *; simplify_eq; done.
Qed.

(** *** Progress: the owner of the mutex and the joined workers can step *)

Lemma lookup_insert_from_option {A B} (f : A → B) d (l : list A) i k x y :
  l !! i = Some y →
  from_option f d (<[i:=x]> l !! k) =
  if decide (i = k) then f x else from_option f d (l !! k).
Proof.
  intros Hl. case_decide as Hd.
  - subst. rewrite list_lookup_insert_eq; [done|by eapply lookup_lt_Some].
  - by rewrite list_lookup_insert_ne.
Qed.

Lemma from_option_notify_one {B} (f : wpc → B) d pick ws i :
  f WWoken = f WWait →
  from_option f d (notify_one pick ws !! i) = from_option f d (ws !! i).
Proof.
  intros Hf. pose proof (notify_one_lookup f pick ws i Hf) as E.
  destruct (notify_one pick ws !! i), (ws !! i); by simplify_eq.
Qed.

Lemma from_option_notify_all {B} (f : wpc → B) d ws i :
  f WWoken = f WWait →
  from_option f d (notify_all ws !! i) = from_option f d (ws !! i).
Proof.
  intros Hf. pose proof (notify_all_lookup f ws i Hf) as E.
  destruct (notify_all ws !! i), (ws !! i); by simplify_eq.
Qed.

Lemma owner_inv_step a s s' :
  step call a s = Some s' → lock_inv s → owner_inv s → owner_inv s'.
Proof.
  unfold owner_inv. intros H (Hw & Hc & Hm & Hd) Ho.
  step_cases H; simpl; intros th Hth.
  all: try match goal with Hf : mutex_free _ = true |- _ => apply mutex_free_None in Hf end.
  all: try (pose proof (Ho _ Hth) as Ho').
  all: destruct th as [|j'|i']; simplify_eq; simpl in *.
  all: rewrite ?from_option_notify_one, ?from_option_notify_all by done.
  all: try match goal with
       | Hl : ?l !! ?i = Some _ |- context [<[?i:=_]> ?l !! _] =>
           rewrite (lookup_insert_from_option _ _ _ _ _ _ _ Hl);
           case_decide; subst
       end.
  all: try match goal with
       | Hl : ?l !! ?i = Some _, Hx : context [?l !! ?i] |- _ =>
           rewrite Hl in Hx
       end.
  all: repeat match goal with
       | Hl : main_d _ = _ |- _ => rewrite Hl in *; clear Hl
       | Hl : main_c _ = _ |- _ => rewrite Hl in *; clear Hl
       end.
  all: simpl in *; try done.
  all: try (rewrite Hd by done; done).
  all: match goal with Hp : c_pc ?c = _, Hx : cholds (c_pc ?c) = true |- _ =>
         rewrite Hp in Hx; done end.
Qed.

Lemma notify_all_no_wait ws i : notify_all ws !! i ≠ Some WWait.
Proof.
  unfold notify_all. rewrite list_lookup_fmap.
  destruct (ws !! i) as [w|]; [|done]. by destruct w.
Qed.

Lemma nowait_inv_step a s s' :
  step call a s = Some s' → stop_inv s → nowait_inv s → nowait_inv s'.
Proof.
  unfold nowait_inv. intros H (Hfalse & Htrue & _) Hn.
  step_cases H; simpl; intros Hj i' Hl'; try done.
  all: try (by eapply Hn).
  all: try (by apply notify_all_no_wait in Hl').
  all: lookups; try (by eapply Hn).
  all: try (apply orb_false_iff in H2 as [Hs _];
            destruct (Hfalse Hs) as [[Hmd|Hmd] _]; rewrite Hmd in Hj; done).
  all: try match goal with Hm : main_d _ = _, Hx : joining _ = true |- _ =>
         rewrite Hm in Hx; simpl in Hx; try done end.
Qed.

Lemma worker_step_eq s i :
  terminated s = false → destroyed s = false →
  step call (AWorker i) s = worker_step call i s.
Proof. intros Ht Hdd. unfold step. by rewrite Ht, Hdd. Qed.

Lemma not_final s :
  ¬ final s → terminated s = false ∧ destroyed s = false.
Proof.
  unfold final, destroyed. intros H. split.
  - destruct (terminated s); [|done]. exfalso. auto.
  - destruct (main_d s); try done. exfalso. auto.
Qed.

(** In a state that is not final some thread can take a step, without any
    spurious wake-up: the pool does not deadlock. *)
Lemma progress s :
  inv s → owner_inv s → nowait_inv s → ¬ final s →
  ∃ a s', is_wake a = false ∧ step call a s = Some s'.
Proof.
  intros ((Hw & Hc & Hm & Hd) & (_ & Hpop & Hfront & _) & _) Ho Hn Hnf.
  destruct (not_final _ Hnf) as [Ht Hdd].
  destruct (queue_mutex s) as [[|j|i]|] eqn:Hmx.
  - (* the owning thread owns the mutex *)
    pose proof (Ho _ Hmx) as Hh. simpl in Hh.
    exists (AMain 0). rewrite main_step_eq by done. unfold main_step, enqueue_step.
    destruct (main_d s) eqn:Hmd; simpl in Hh;
      try (rewrite Hd in Hh by done; done); eauto.
    destruct (main_c s) as [[] todo]; simpl in Hh; try done; eauto.
  - (* a submitting thread owns it *)
    pose proof (Ho _ Hmx) as Hh. simpl in Hh.
    destruct (callers s !! j) as [[pc todo]|] eqn:Hj; [|done]. simpl in Hh.
    exists (ACaller j 0). rewrite (caller_step_eq _ _ _ _ Ht Hdd Hj).
    unfold enqueue_step. destruct pc; simpl in *; try done; eauto.
  - (* a worker owns it *)
    pose proof (Ho _ Hmx) as Hh. simpl in Hh.
    destruct (workers s !! i) as [w|] eqn:Hi; [|done]. simpl in Hh.
    exists (AWorker i). rewrite worker_step_eq by done.
    unfold worker_step. rewrite Hi.
    destruct w; simpl in Hh; try done.
    + destruct (stop s || negb (is_empty (tasks s))); eauto.
    + destruct (stop s && is_empty (tasks s)); eauto.
    + specialize (Hfront _ Hi). destruct (tasks s); [done|eauto].
    + specialize (Hpop _ _ Hi). destruct (tasks s); [done|eauto].
    + eauto.
  - (* the mutex is free *)
    assert (mutex_free s = true) as Hfree by (unfold mutex_free; by rewrite Hmx).
    destruct (main_d s) as [| | | |k|] eqn:Hmd.
    + exists (AMain 0). rewrite main_step_eq by done.
      unfold main_step, enqueue_step. rewrite Hmd, Hfree.
      destruct (main_c s) as [[] [|t todo]] eqn:Hmc; simpl; eauto.
      all: rewrite Hmc in Hm; simpl in Hm; specialize (Hm eq_refl); congruence.
    + rewrite orb_true_r in Hm. specialize (Hm eq_refl). congruence.
    + rewrite orb_true_r in Hm. specialize (Hm eq_refl). congruence.
    + exists (AMain 0). rewrite main_step_eq by done.
      unfold main_step. rewrite Hmd. eauto.
    + destruct (workers s !! k) as [w|] eqn:Hk.
      2:{ exists (AMain 0). rewrite main_step_eq by done.
          unfold main_step. rewrite Hmd, Hk. eauto. }
      destruct (decide (is_exit w = true)) as [He|He].
      { exists (AMain 0). rewrite main_step_eq by done.
        unfold main_step. rewrite Hmd, Hk. destruct w; try done. eauto. }
      exists (AWorker k). rewrite worker_step_eq by done.
      unfold worker_step. rewrite Hk, Hfree.
      assert (wholds w = false) as Hnh.
      { destruct (wholds w) eqn:E; [|done]. specialize (Hw _ _ Hk E). congruence. }
      assert (w ≠ WWait) as Hnw.
      { intros ->. eapply Hn; [by rewrite Hmd|done]. }
      destruct w; simpl in *; try done; eauto.
      destruct (call e.2 (env s)); eauto.
    + exfalso. apply Hnf. by right.
Qed.

(** *** Every step other than a spurious wake-up lowers the measure *)

Lemma total_insert {A} (f : A → nat) (l : list A) i x y :
  l !! i = Some x →
  total f (<[i:=y]> l) + f x = total f l + f y.
Proof.
  revert i. induction l as [|z l IH]; intros i Hi; [done|].
  destruct i as [|i]; simpl in *.
  - simplify_eq. lia.
  - specialize (IH _ Hi). lia.
Qed.

Lemma total_wake_first ws :
  total worker_weight (wake_first ws) ≤ total worker_weight ws + 2.
Proof.
  induction ws as [|w ws IH]; simpl; [lia|].
  destruct w; cbn [wake_first total]; try lia.
  change (worker_weight WWoken) with 8. change (worker_weight WWait) with 6. lia.
Qed.

Lemma total_notify_one pick ws :
  total worker_weight (notify_one pick ws) ≤ total worker_weight ws + 2.
Proof.
  unfold notify_one.
  destruct (ws !! pick) as [w|] eqn:Hp; [|apply total_wake_first].
  destruct w; try apply total_wake_first.
  pose proof (total_insert worker_weight ws pick WWait WWoken Hp) as E.
  change (worker_weight WWoken) with 8 in E.
  change (worker_weight WWait) with 6 in E. lia.
Qed.

Lemma total_notify_all ws :
  total worker_weight (notify_all ws) ≤ total worker_weight ws + 2 * length ws.
Proof.
  unfold notify_all. induction ws as [|w ws IH]; [simpl; lia|].
  rewrite fmap_cons. cbn [total length wake].
  destruct w; cbn [wake]; try lia.
  change (worker_weight WWoken) with 8. change (worker_weight WWait) with 6. lia.
Qed.

Lemma measure_step a s s' :
  step call a s = Some s' → is_wake a = false → measure s' < measure s.
Proof.
  intros H Ha. unfold measure.
  step_cases H; simpl in *; try done.
  all: try match goal with Hx : _ || _ = false |- _ =>
         apply orb_false_iff in Hx as [Hx _]; rewrite Hx end.
  all: rewrite ?length_insert, ?length_notify_one, ?length_notify_all, ?length_app.
  all: try match goal with Hl : workers _ !! ?i = Some ?w |- context [<[?i:=?w']> _] =>
         pose proof (total_insert worker_weight _ i w w' Hl) as Ew;
         unfold worker_weight in Ew at 2 4; simpl in Ew end.
  all: try match goal with Hl : callers _ !! ?i = Some ?c |- context [<[?i:=?c']> _] =>
         pose proof (total_insert caller_weight _ i c c' Hl) as Ec;
         unfold caller_weight in Ec at 2 4; simpl in Ec end.
  all: try match goal with |- context [notify_one ?p ?ws] =>
         pose proof (total_notify_one p ws) end.
  all: try match goal with |- context [notify_all ?ws] =>
         pose proof (total_notify_all ws) end.
  all: repeat match goal with
       | Hl : c_pc _ = _ |- _ => rewrite Hl in *; clear Hl
       | Hl : c_todo _ = _ |- _ => rewrite Hl in *; clear Hl
       | Hl : main_c _ = _ |- _ => rewrite Hl in *; clear Hl
       | Hl : main_d _ = _ |- _ => rewrite Hl in *; clear Hl
       | Hl : tasks _ = _ |- _ => rewrite Hl in *; clear Hl
       end.
  all: simplify_eq.
  all: unfold caller_weight in *; simpl in *; try lia.
  all: try congruence.
  match goal with Hl : workers _ !! _ = Some _ |- _ =>
    apply lookup_lt_Some in Hl end.
  lia.
Qed.

(** *** Every reachable state can run to a final state *)

Lemma live_step a s s' : step call a s = Some s' → live s → live s'.
Proof.
  intros H (Hi & Ho & Hn). pose proof Hi as (Hl & _ & _ & _ & Hs).
  split; [by eapply inv_step|].
  split; [by eapply owner_inv_step|by eapply nowait_inv_step].
Qed.

Lemma live_init n script others ini : live (init n script others ini).
Proof.
  split; [apply inv_init|]. split.
  - intros t Ht. done.
  - intros Hj. done.
Qed.

Lemma live_run n script others ini sched s :
  run call sched (init n script others ini) = Some s → live s.
Proof.
  intros H. eapply (run_invariant (λ s, live s)); eauto using live_step, live_init.
Qed.

Lemma completes_from (m : nat) : ∀ s,
  measure s < m → live s →
  ∃ sched s', no_spurious sched ∧ run call sched s = Some s' ∧ final s'.
Proof.
  induction m as [|m IH]; intros s Hm Hl; [lia|].
  destruct (terminated s) eqn:Ht.
  { exists [], s. split; [constructor|]. split; [done|by left]. }
  destruct (destroyed s) eqn:Hdd.
  { exists [], s. split; [constructor|]. split; [done|right].
    unfold destroyed in Hdd. by destruct (main_d s). }
  destruct Hl as (Hi & Ho & Hn).
  destruct (progress s Hi Ho Hn) as (a & s1 & Ha & Hs).
  { intros [?|Hd]; [congruence|]. unfold destroyed in Hdd. by rewrite Hd in Hdd. }
  pose proof (measure_step _ _ _ Hs Ha) as Hlt.
  destruct (IH s1) as (sched & s' & Hns & Hrun & Hf).
  { lia. }
  { eapply live_step; eauto. by split. }
  exists (a :: sched), s'. split; [by constructor|].
  split; [|done]. simpl. by rewrite Hs.
Qed.

Lemma no_spurious_bound sched : ∀ s s',
  no_spurious sched → run call sched s = Some s' →
  length sched + measure s' ≤ measure s.
Proof.
  induction sched as [|a sched IH]; intros s s' Hns Hrun.
  - simpl in *. simplify_eq. lia.
  - simpl in Hrun. destruct (step call a s) as [s1|] eqn:Hs; [|done].
    apply Forall_cons in Hns as [Ha Hns].
    pose proof (measure_step _ _ _ Hs Ha). specialize (IH _ _ Hns Hrun).
    simpl. lia.
Qed.


(** From every reachable state the program can run, without spurious
    wake-ups, to a state where the destructor has returned or the process was
    terminated by a throwing task; and no schedule without spurious wake-ups
    is longer than the measure of its first state. *)
Lemma shutdown_completes n script others ini sched s :
  run call sched (init n script others ini) = Some s →
  ∃ sched' s', no_spurious sched' ∧ run call sched' s = Some s' ∧ final s'.
Proof.
  intros H. apply (completes_from (S (measure s))); [lia|].
  by eapply live_run.
Qed.

Lemma never_terminated a s s' :
  (∀ t v, call t v ≠ None) →
  step call a s = Some s' → terminated s = false → terminated s' = false.
Proof.
  intros Hc H Ht. step_cases H; simpl; try done.
  by match goal with Hx : call _ _ = None |- _ => apply Hc in Hx end.
Qed.

Lemma shutdown_returns n script others ini :
  (∀ t v, call t v ≠ None) →
  ∃ sched s, no_spurious sched ∧
    run call sched (init n script others ini) = Some s ∧ main_d s = DDone.
Proof.
  intros Hc.
  destruct (shutdown_completes n script others ini [] _ eq_refl)
    as (sched & s & Hns & Hrun & Hf).
  exists sched, s. split; [done|]. split; [done|].
  destruct Hf as [Hf|Hf]; [|done].
  assert (terminated s = false); [|congruence].
  eapply (run_invariant (λ s, terminated s = false)); eauto.
  intros; by eapply never_terminated.
Qed.

(** *** The effect of the executed tasks *)

Lemma sequential_snoc v script t :
  sequential call v (script ++ [t]) = sequential call v script ≫= call t.
Proof.
  revert v. induction script as [|x l IH]; intros v; simpl.
  - by destruct (call t v).
  - destruct (call x v); [apply IH|done].
Qed.

Lemma replay_sequential ini (l : list (@entry Task)) :
  replay call ini l = sequential call ini (rev (snd <$> l)).
Proof.
  induction l as [|e l IH]; [done|].
  rewrite fmap_cons. cbn [rev]. rewrite sequential_snoc, <- IH. done.
Qed.

(** The worker whose task threw stays at line 33. *)
Lemma thrown_step a s s' :
  step call a s = Some s' → terminated s' = true →
  ∃ i e, workers s' !! i = Some (WRun e).
Proof.
  intros H Ht.
  assert (terminated s = false) as Hs.
  { unfold step in H. destruct (terminated s); [done|done]. }
  step_cases H; simpl in *; try congruence.
  eauto.
Qed.

Lemma thrown_run n script others ini sched s :
  run call sched (init n script others ini) = Some s →
  terminated s = true →
  ∃ i e, workers s !! i = Some (WRun e).
Proof.
  intros Hrun.
  eapply (run_invariant (λ s, terminated s = true →
    ∃ i e, workers s !! i = Some (WRun e))); eauto.
  - intros a s1 s2 Hst _. by eapply thrown_step.
  - done.
Qed.

(** ** The properties *)

(** C1.  Drain guarantee.  For a pool constructed with at least one worker:
    whenever the destructor has returned, every worker has returned from its
    loop, every entry that was submitted before the shutdown flag was set has
    been executed, and no entry was executed twice.  In particular every
    callable the owning thread submitted has been executed; when the owning
    thread is the only one that submits, the executed callables are exactly
    its script.  The executed callables have all run to completion, none
    threw, and the environment is their combined effect: it is what calling
    them one after the other, in the order of their execution, makes of the
    initial environment. *)
Theorem drain_guarantee n script others ini sched s :
  1 ≤ n →
  run call sched (init n script others ini) = Some s →
  main_d s = DDone →
  (∀ i w, workers s !! i = Some w → w = WExit) ∧
  length (workers s) = n ∧
  (∀ e, e ∈ pre_stop s → e ∈ executed s) ∧
  NoDup (fst <$> executed s) ∧
  (∀ t, t ∈ script → t ∈ snd <$> executed s) ∧
  (others = [] → snd <$> executed s ≡ₚ script) ∧
  terminated s = false ∧
  replay call ini (executed s) = Some (env s) ∧
  sequential call ini (rev (snd <$> executed s)) = Some (env s).
Proof.
  intros Hn Hrun Hd.
  pose proof (inv_run _ _ _ _ _ _ Hrun) as Hinv.
  pose proof (replay_run _ _ _ _ _ _ Hrun) as Hrep.
  pose proof (run_length_workers _ _ _ _ _ _ Hrun) as Hlen.
  assert (0 < length (workers s)) as Hpos by lia.
  destruct (drained s Hinv Hpos Hd) as (Hall & Hs & Hfl & Hex).
  split; [done|]. split; [done|]. split; [done|].
  split; [by apply executed_NoDup|].
  split.
  { intros t Ht.
    pose proof (script_mem_run _ _ _ _ _ _ Hrun Hs t Ht) as Hin.
    apply list_elem_of_fmap in Hin as (e & -> & Hin).
    apply list_elem_of_fmap_2. by apply Hex. }
  split.
  { intros ->. assert (0 < n) as Hn' by lia.
    by destruct (single_producer_done _ _ _ _ _ Hn' Hrun Hd) as (_ & ? & _). }
  split.
  { destruct (terminated s) eqn:Ht; [|done].
    destruct (thrown_run _ _ _ _ _ _ Hrun Ht) as (i & e & Hi).
    by specialize (Hall _ _ Hi). }
  split; [done|]. by rewrite <- replay_sequential.
Qed.

(** C2.  Exactly-once transfer.  In every reachable state: at most one
    thread is inside a locked scope; the entry a worker moved out of
    [front()] is still the front of the queue when the same worker pops; no
    entry was removed from the queue twice, so each removed entry belongs to
    one worker; a removed entry is no longer queued; and an entry is executed
    at most once, after it was removed. *)
Theorem claimed_exactly_once n script others ini sched s :
  run call sched (init n script others ini) = Some s →
  (∀ i k w w', workers s !! i = Some w → workers s !! k = Some w' →
               wholds w = true → wholds w' = true → i = k) ∧
  (∀ i e, workers s !! i = Some (WPop e) → head (tasks s) = Some e) ∧
  NoDup (fst <$> (snd <$> claimed s)) ∧
  (∀ i k e, (i, e) ∈ claimed s → (k, e) ∈ claimed s → i = k) ∧
  (∀ e, e ∈ snd <$> claimed s → e ∉ tasks s) ∧
  NoDup (fst <$> executed s) ∧
  (∀ e, e ∈ executed s → e ∈ snd <$> claimed s).
Proof.
  intros Hrun. pose proof (inv_run _ _ _ _ _ _ Hrun) as Hinv.
  pose proof (claimed_NoDup _ Hinv) as Hnd.
  split; [|split; [|split; [done|split; [|split; [|split]]]]].
  - destruct Hinv as ((Hw & _) & _). intros i k w w' Hi Hk Hwi Hwk.
    pose proof (Hw _ _ Hi Hwi) as E1. pose proof (Hw _ _ Hk Hwk) as E2.
    congruence.
  - by destruct Hinv as (_ & (_ & Hpop & _) & _).
  - intros i k e Hi Hk. rewrite <- list_fmap_compose in Hnd.
    by pose proof (NoDup_fmap_eq _ _ _ _ Hnd Hi Hk eq_refl) as [= ->].
  - intros e. by apply claimed_not_queued.
  - by apply executed_NoDup.
  - intros e He. destruct Hinv as (_ & _ & _ & Hf & _).
    unfold flight_inv in Hf. rewrite Hf. apply elem_of_app. by right.
Qed.

(** C3.  FIFO.  In every reachable state the entries removed from the queue,
    in the order of their removal, followed by the queue, are the submitted
    entries in the order of their submission.  With one worker and the owning
    thread as only producer, the callables executed so far, in the order of
    their execution, are a prefix of the script, and the whole script once the
    destructor has returned; the environment is what calling that prefix in
    order makes of the initial environment, hence, once the destructor has
    returned, what running the script in order makes of it. *)
Theorem fifo_order n script others ini sched s :
  run call sched (init n script others ini) = Some s →
  rev (submitted s) = rev (snd <$> claimed s) ++ tasks s ∧
  (n = 1 → others = [] →
     (∃ rest, script = rev (snd <$> executed s) ++ rest) ∧
     (main_d s = DDone → rev (snd <$> executed s) = script) ∧
     sequential call ini (rev (snd <$> executed s)) = Some (env s) ∧
     (main_d s = DDone → sequential call ini script = Some (env s))).
Proof.
  intros Hrun. pose proof (inv_run _ _ _ _ _ _ Hrun) as Hinv.
  pose proof (replay_run _ _ _ _ _ _ Hrun) as Hrep.
  rewrite replay_sequential in Hrep.
  pose proof Hinv as (_ & (Hsub & _) & _).
  split.
  - by rewrite Hsub, rev_app_distr, rev_involutive.
  - intros -> ->.
    pose proof (run_length_workers _ _ _ _ _ _ Hrun) as Hlen.
    pose proof (fifo_run _ _ _ _ _ _ Hrun) as Hfifo.
    destruct (script_run _ _ _ _ _ Hrun) as [Hscript _].
    destruct (workers s) as [|w [|]] eqn:Hws; simpl in Hlen; try lia.
    specialize (Hfifo _ Hws).
    split.
    + rewrite <- Hscript, Hsub, Hfifo.
      rewrite !fmap_app, !rev_app_distr, <- !app_assoc. eauto.
    + assert (main_d s = DDone → rev (snd <$> executed s) = script) as Hall.
      { intros Hd.
        destruct (single_producer_done _ _ _ _ _ (Nat.lt_0_1) Hrun Hd)
          as (Ht & _ & Hsc).
        assert (0 < length (workers s)) as Hpos by (rewrite Hws; simpl; lia).
        destruct (drained s Hinv Hpos Hd) as (Hex & _).
        pose proof (Hex 0 w ltac:(by rewrite Hws)) as ->.
        rewrite <- Hsc, Hsub, Ht, Hfifo. done. }
      split; [done|]. split; [done|].
      intros Hd. by rewrite <- (Hall Hd).
Qed.

(** C8.  The shutdown flag is false when the pool is constructed and no step,
    hence no schedule, takes it from true back to false. *)
Theorem shutdown_flag_one_way :
  (∀ n script others ini, stop (init n script others ini) = false) ∧
  (∀ sched s s', run call sched s = Some s' → stop s = true → stop s' = true).
Proof.
  split; [done|].
  intros sched s s' Hrun Hs.
  eapply (run_invariant (λ s, stop s = true)); eauto.
  clear. intros a s s' H Hs. step_cases H; simpl; done.
Qed.

(** C4.  Worker termination condition.  A worker that evaluates the wait
    predicate, run until it leaves the locked scope, returns from its loop
    exactly when the queue is empty and the flag is set, goes back to waiting
    exactly when the queue is empty and the flag is not set, and otherwise
    removes the front entry, whatever the flag.  Moreover any step after which
    a worker has returned is a step of that worker at line 26 that saw the
    queue empty and the flag set. *)
Theorem worker_termination_condition :
  (∀ s i,
     terminated s = false → destroyed s = false →
     workers s !! i = Some WPred →
     ∃ s' r, on_wake call i s = Some s' ∧
       workers s' !! i ≫= outcome = Some r ∧
       (r = Terminate ↔ tasks s = [] ∧ stop s = true) ∧
       (r = Block ↔ tasks s = [] ∧ stop s = false) ∧
       (∀ e q, tasks s = e :: q → r = Claim e ∧ tasks s' = q)) ∧
  (∀ a s s' i,
     step call a s = Some s' →
     workers s' !! i = Some WExit →
     workers s !! i = Some WExit ∨
     (a = AWorker i ∧ workers s !! i = Some WTest ∧
      tasks s = [] ∧ stop s = true)).
Proof.
  split.
  - intros s i Ht Hdd Hw. pose proof (lookup_lt_Some _ _ _ Hw) as Hlt.
    destruct s as [ws q m st mc md cs ev tm sub cl ex ps].
    unfold destroyed in Hdd. simpl in *. subst tm.
    unfold on_wake.
    destruct q as [|e q], st.
    all: repeat (cbn; unfold step, destroyed, worker_step; cbn;
                 rewrite ?list_insert_insert_eq;
                 rewrite ?Hdd, ?Hw, ?list_lookup_insert_eq by done).
    all: eexists _, _; (split; [reflexivity|]); cbn.
    all: rewrite ?list_insert_insert_eq, list_lookup_insert_eq by done; cbn.
    all: (split; [reflexivity|]).
    all: repeat split; intros; simplify_eq; try done; by intuition.
  - intros a s s' i H Hex.
    step_cases H; simpl in *; lookups; auto.
    match goal with Hx : _ && is_empty _ = true |- _ =>
      apply andb_true_iff in Hx as [Hs Hx]; apply is_empty_true in Hx end.
    right. auto.
Qed.

(** C5.  Enqueue postcondition.  A call of [enqueue] that is not interleaved
    with other threads, made by a submitting thread or by the owning thread,
    returns with the task appended at the back of the queue: the length grows
    by one, the entries queued before are unchanged and in place, the caller
    is back outside the call with the mutex released, and, when some worker
    was blocked in the wait, a blocked worker has been unblocked; workers that
    were not blocked are left as they were. *)
Theorem enqueue_postcondition s pick t rest :
  terminated s = false → destroyed s = false →
  queue_mutex s = None →
  (∀ j, callers s !! j = Some (MkCaller CCall (t :: rest)) →
     ∃ s', enqueue_call call j pick s = Some s' ∧
       callers s' !! j = Some (MkCaller CCall rest) ∧
       tasks s' = tasks s ++ [(length (submitted s), t)] ∧
       length (tasks s') = S (length (tasks s)) ∧
       take (length (tasks s)) (tasks s') = tasks s ∧
       queue_mutex s' = None ∧
       ((∃ i, workers s !! i = Some WWait) →
         ∃ i, workers s !! i = Some WWait ∧ workers s' !! i = Some WWoken) ∧
       (∀ i w, workers s !! i = Some w → w ≠ WWait → workers s' !! i = Some w)) ∧
  (main_d s = DLive → main_c s = MkCaller CCall (t :: rest) →
     ∃ s', main_alone call 4 s = Some s' ∧
       main_c s' = MkCaller CCall rest ∧
       tasks s' = tasks s ++ [(length (submitted s), t)] ∧
       length (tasks s') = S (length (tasks s)) ∧
       take (length (tasks s)) (tasks s') = tasks s ∧
       queue_mutex s' = None ∧
       ((∃ i, workers s !! i = Some WWait) →
         ∃ i, workers s !! i = Some WWait ∧ workers s' !! i = Some WWoken) ∧
       (∀ i w, workers s !! i = Some w → w ≠ WWait → workers s' !! i = Some w)).
Proof.
  intros Ht Hdd Hm. split.
  - intros j Hc. eexists. split; [by apply enqueue_call_spec|].
    simpl. split; [apply list_lookup_insert_eq; by eapply lookup_lt_Some|].
    split; [done|]. split; [rewrite length_app; simpl; lia|].
    split; [by rewrite take_app_length|].
    split; [done|]. split; [apply notify_one_wakes|].
    intros i w. apply notify_one_others.
  - intros Hd Hc. eexists. split; [by apply main_enqueue_alone|].
    simpl. split; [done|].
    split; [done|]. split; [rewrite length_app; simpl; lia|].
    split; [by rewrite take_app_length|].
    split; [done|]. split; [apply notify_one_wakes|].
    intros i w. apply notify_one_others.
Qed.

(** C6, as the code has it.  [enqueue] neither reads nor writes the shutdown
    flag: running the call with the flag forced to [b] is running the call
    and then forcing the flag to [b].  In particular a call made while the
    flag is set returns normally with the task appended to the queue, the flag
    still set and no error raised. *)
Theorem enqueue_ignores_shutdown :
  (∀ s j pick b,
     enqueue_call call j pick (set_stop b s) =
     set_stop b <$> enqueue_call call j pick s) ∧
  (∀ s j pick t rest,
     stop s = true →
     terminated s = false → destroyed s = false →
     queue_mutex s = None →
     callers s !! j = Some (MkCaller CCall (t :: rest)) →
     ∃ s', enqueue_call call j pick s = Some s' ∧
       tasks s' = tasks s ++ [(length (submitted s), t)] ∧
       callers s' !! j = Some (MkCaller CCall rest) ∧
       stop s' = true ∧ terminated s' = false).
Proof.
  split.
  - intros s j pick b. unfold enqueue_call.
    generalize 4. intros k. revert s.
    induction k as [|k IH]; intros s; [done|].
    cbn [replicate run].
    assert (step call (ACaller j pick) (set_stop b s) =
            set_stop b <$> step call (ACaller j pick) s) as ->.
    { destruct s as [ws q m st mc md cs ev tm sub cl ex ps].
      unfold step, destroyed, caller_step, enqueue_step, mutex_free. simpl.
      destruct tm, md; simpl; try done.
      all: destruct (cs !! j) as [[[] []]|]; simpl; try done.
      all: destruct m; simpl; done. }
    destruct (step call (ACaller j pick) s) as [s1|]; simpl; [apply IH|done].
  - intros s j pick t rest Hs Ht Hdd Hm Hc. eexists.
    split; [by apply enqueue_call_spec|]. simpl.
    split; [done|].
    split; [apply list_lookup_insert_eq; by eapply lookup_lt_Some|done].
Qed.


(** C10.  A pool constructed with zero workers has no worker thread.  Its
    owning thread, running alone, submits its whole script and then runs the
    destructor to its end: nothing blocks it.  No callable is ever executed
    or even removed from the queue, whatever the schedule and whoever
    submits; when the destructor has returned the submitted callables are all
    still in the queue. *)
Theorem zero_workers script ini :
  workers (init 0 script [] ini) = [] ∧
  (∃ s', main_alone call (4 * length script + 5) (init 0 script [] ini) = Some s' ∧
     main_d s' = DDone ∧ snd <$> tasks s' = script ∧ executed s' = []) ∧
  (∀ others sched s,
     run call sched (init 0 script others ini) = Some s →
     executed s = [] ∧ claimed s = [] ∧ tasks s = rev (submitted s)).
Proof.
  split; [done|]. split.
  - destruct (no_worker_main_alone script (init 0 script [] ini))
      as (s' & Hrun & Hd & _ & Hq & Hex); try done.
    exists s'. by rewrite Hrun, Hd, Hq, Hex.
  - intros others sched s Hrun.
    pose proof (inv_run _ _ _ _ _ _ Hrun) as (_ & (Hsub & _) & _).
    assert (workers s = [] ∧ executed s = [] ∧ claimed s = []) as (_ & He & Hc).
    { eapply (run_invariant
        (λ s, workers s = [] ∧ executed s = [] ∧ claimed s = [])); eauto.
      apply no_worker_step. }
    split; [done|]. split; [done|].
    rewrite Hsub, Hc. simpl. by rewrite app_nil_r, rev_involutive.
Qed.

(** ** Further properties of the pool *)

(** X1.  The pool does not deadlock: in every reachable state in which the
    process is alive and the destructor has not returned, some thread can
    take a step, and not only by a spurious wake-up. *)
Theorem pool_never_deadlocks n script others ini sched s :
  run call sched (init n script others ini) = Some s →
  terminated s = false → main_d s ≠ DDone →
  ∃ a s', is_wake a = false ∧ step call a s = Some s'.
Proof.
  intros Hrun Ht Hd.
  destruct (live_run _ _ _ _ _ _ Hrun) as (Hi & Ho & Hn).
  apply progress; try done. intros [?|?]; congruence.
Qed.

Lemma total_replicate {A} (f : A → nat) (x : A) k :
  total f (replicate k x) = k * f x.
Proof. induction k as [|k IH]; simpl; lia. Qed.

Lemma total_callers_init (others : list (list Task)) :
  total caller_weight (MkCaller CCall <$> others) = 16 * total length others.
Proof.
  induction others as [|o l IH]; [done|].
  rewrite fmap_cons. cbn [total]. rewrite IH.
  unfold caller_weight. cbn [c_todo c_pc]. lia.
Qed.

(** X2.  The pool cannot run for ever on its own: a schedule without spurious
    wake-ups that starts at the constructed pool has at most
    [16 * tasks + 13 * workers + 7] steps, where [tasks] counts what all
    threads have to submit. *)
Theorem spurious_free_run_bounded n script others ini sched s :
  run call sched (init n script others ini) = Some s →
  no_spurious sched →
  length sched ≤ 16 * (length script + total length others) + 13 * n + 7.
Proof.
  intros Hrun Hns.
  pose proof (no_spurious_bound _ _ _ Hns Hrun) as Hb.
  assert (measure (init n script others ini) =
          16 * (length script + total length others) + 13 * n + 7) as E.
  { unfold measure, init. cbn [main_c main_d callers workers tasks terminated].
    rewrite length_replicate, total_replicate, total_callers_init.
    change (worker_weight WLock) with 9.
    unfold caller_weight, dtor_weight. cbn [c_todo c_pc length]. lia. }
  lia.
Qed.

(** X3.  When no task throws, the destructor can return from every reachable
    state: some continuation without spurious wake-ups ends with the
    destructor returned. *)
Theorem destructor_can_always_return n script others ini sched s :
  (∀ t v, call t v ≠ None) →
  run call sched (init n script others ini) = Some s →
  ∃ sched' s', no_spurious sched' ∧ run call sched' s = Some s' ∧
               main_d s' = DDone.
Proof.
  intros Hc Hrun.
  destruct (shutdown_completes _ _ _ _ _ _ Hrun) as (sched' & s' & Hns & Hr & Hf).
  exists sched', s'. split; [done|]. split; [done|].
  destruct Hf as [Hf|Hf]; [|done].
  assert (terminated s' = false); [|congruence].
  assert (run call (sched ++ sched') (init n script others ini) = Some s') as Hall.
  { rewrite run_app, Hrun. done. }
  eapply (run_invariant (λ s, terminated s = false)); eauto.
  intros; by eapply never_terminated.
Qed.

(** X4.  [front()] and [pop()] are never called on an empty queue: in every
    reachable, live state a worker at line 30 or 31 finds the queue non-empty,
    so its step is defined. *)
Theorem front_never_on_empty_queue n script others ini sched s i w :
  run call sched (init n script others ini) = Some s →
  terminated s = false →
  workers s !! i = Some w →
  w = WFront ∨ (∃ e, w = WPop e) →
  tasks s ≠ [] ∧ is_Some (step call (AWorker i) s).
Proof.
  intros Hrun Ht Hw Hpc.
  pose proof (inv_run _ _ _ _ _ _ Hrun)
    as (_ & (_ & Hpop & Hfront & _) & _ & _ & (_ & _ & _ & _ & Hdone)).
  assert (destroyed s = false) as Hdd.
  { unfold destroyed. destruct (main_d s) eqn:Hd; try done.
    specialize (Hdone eq_refl _ _ Hw). destruct Hpc as [->|[e ->]]; done. }
  rewrite worker_step_eq by done. unfold worker_step. rewrite Hw.
  destruct Hpc as [->|[e ->]].
  - specialize (Hfront _ Hw). destruct (tasks s); [done|]. split; [done|eauto].
  - specialize (Hpop _ _ Hw). destruct (tasks s); [done|]. split; [done|eauto].
Qed.

(** X5.  Mutual exclusion over all threads: in every reachable state a thread,
    worker or submitter or owner, is inside a locked scope exactly when it is
    the owner recorded in the mutex; so two threads are never inside locked
    scopes together. *)
Theorem mutex_owner_unique n script others ini sched s :
  run call sched (init n script others ini) = Some s →
  (∀ t, holds s t = true ↔ queue_mutex s = Some t) ∧
  (∀ t u, holds s t = true → holds s u = true → t = u).
Proof.
  intros Hrun.
  destruct (live_run _ _ _ _ _ _ Hrun) as (((Hw & Hc & Hm & _) & _) & Ho & _).
  assert (∀ t, holds s t = true → queue_mutex s = Some t) as Hfwd.
  { intros [|j|i] Hh; simpl in Hh.
    - by apply Hm.
    - destruct (callers s !! j) as [c|] eqn:Hj; [|done]. by eapply Hc.
    - destruct (workers s !! i) as [w|] eqn:Hi; [|done]. by eapply Hw. }
  split.
  - intros t. split; [apply Hfwd|apply Ho].
  - intros t u Ht Hu. apply Hfwd in Ht, Hu. congruence.
Qed.

(** X6.  Conservation of tasks: in every reachable state each submitted entry
    is in exactly one place, the queue, the hands of a worker, or the
    execution log; nothing is lost and nothing is duplicated. *)
Theorem tasks_conserved n script others ini sched s :
  run call sched (init n script others ini) = Some s →
  tasks s ++ in_flight s ++ executed s ≡ₚ submitted s ∧
  NoDup (fst <$> (tasks s ++ in_flight s ++ executed s)) ∧
  fst <$> rev (submitted s) = seq 0 (length (submitted s)).
Proof.
  intros Hrun.
  pose proof (inv_run _ _ _ _ _ _ Hrun) as (_ & (Hsub & _) & Hnum & Hf & _).
  assert (tasks s ++ in_flight s ++ executed s ≡ₚ submitted s) as Hperm.
  { rewrite Hsub. unfold flight_inv in Hf. rewrite Hf.
    by rewrite <- Permutation_rev. }
  split; [done|]. split.
  - rewrite Hperm. by apply numbered_NoDup.
  - clear -Hnum. induction (submitted s) as [|e l IH]; [done|].
    destruct Hnum as [He Hn]. cbn [rev length].
    rewrite fmap_app, IH, seq_S by done. cbn. by rewrite He.
Qed.

(** X7.  A spurious wake-up is harmless: a worker blocked on an empty queue
    with the flag not set, woken up for no reason, re-acquires the mutex,
    evaluates the predicate again and blocks again; the pool is exactly as
    it was. *)
Theorem spurious_wake_harmless s i :
  terminated s = false → destroyed s = false →
  queue_mutex s = None → stop s = false → tasks s = [] →
  workers s !! i = Some WWait →
  run call [AWake i; AWorker i; AWorker i] s = Some s.
Proof.
  intros Ht Hdd Hm Hs Hq Hw. pose proof (lookup_lt_Some _ _ _ Hw) as Hlt.
  destruct s as [ws q m st mc md cs ev tm sub cl ex ps].
  unfold destroyed in Hdd. cbn in Ht, Hdd, Hm, Hs, Hq, Hw, Hlt. subst.
  erewrite run_step_Some; cycle 1.
  { unfold step, destroyed, spurious_wake. cbn. by rewrite Hdd, Hw. }
  erewrite run_step_Some; cycle 1.
  { unfold step, destroyed, worker_step. cbn.
    by rewrite Hdd, list_lookup_insert_eq. }
  erewrite run_step_Some; cycle 1.
  { unfold step, destroyed, worker_step. cbn.
    rewrite Hdd, list_insert_insert_eq, list_lookup_insert_eq by done.
    cbn. reflexivity. }
  cbn. unfold set_worker. cbn.
  by rewrite !list_insert_insert_eq, (list_insert_id _ _ _ Hw).
Qed.

(** X10.  With the owning thread as only producer and at least one worker,
    when the destructor has returned the queue is empty, no entry is in
    flight, the mutex is free, the execution log holds every submitted
    entry, and the environment is the combined effect of the executed
    callables on the initial environment. *)
Theorem queue_empty_after_shutdown n script ini sched s :
  1 ≤ n →
  run call sched (init n script [] ini) = Some s →
  main_d s = DDone →
  tasks s = [] ∧ in_flight s = [] ∧ queue_mutex s = None ∧
  executed s ≡ₚ submitted s ∧ length (executed s) = length script ∧
  replay call ini (executed s) = Some (env s).
Proof.
  intros Hn Hrun Hd.
  pose proof (replay_run _ _ _ _ _ _ Hrun) as Hrep.
  pose proof (live_run _ _ _ _ _ _ Hrun) as (Hinv & Ho & _).
  pose proof (run_length_workers _ _ _ _ _ _ Hrun) as Hlen.
  pose proof (run_length_callers _ _ _ _ _ _ Hrun) as Hcs.
  assert (0 < length (workers s)) as Hpos by lia.
  assert (0 < n) as Hn' by lia.
  destruct (drained s Hinv Hpos Hd) as (Hall & Hs & Hfl & Hex).
  destruct (single_producer_done _ _ _ _ _ Hn' Hrun Hd) as (Hq & Hperm & Hscr).
  destruct Hinv as ((_ & _ & _ & Hmc) & (Hsub & _) & _ & Hf & _).
  unfold flight_inv in Hf. rewrite Hfl in Hf. simpl in Hf.
  assert (executed s ≡ₚ submitted s) as Hes.
  { rewrite Hsub, Hq. simpl. by rewrite Hf. }
  split; [done|]. split; [done|]. split.
  - destruct (queue_mutex s) as [t|] eqn:Hmx; [|done].
    specialize (Ho _ Hmx). destruct t as [|j|i]; simpl in Ho.
    + rewrite Hmc, Hd in Ho by congruence. done.
    + apply length_zero_iff_nil in Hcs. by rewrite Hcs in Ho.
    + destruct (workers s !! i) as [w|] eqn:Hi; [|done].
      by rewrite (Hall _ _ Hi) in Ho.
  - split; [done|]. split; [|done].
    rewrite <- Hscr, length_rev, length_fmap. by rewrite Hes.
Qed.

(** X11.  No lost wake-up at shutdown: once the destructor has called
    [notify_all], no worker is blocked in the wait, in any reachable state;
    a thread the destructor joins is running towards its return. *)
Theorem no_wait_after_notify_all n script others ini sched s i :
  run call sched (init n script others ini) = Some s →
  joining (main_d s) = true →
  stop s = true ∧ workers s !! i ≠ Some WWait.
Proof.
  intros Hrun Hj.
  pose proof (live_run _ _ _ _ _ _ Hrun)
    as ((_ & _ & _ & _ & (Hfalse & _)) & _ & Hn).
  split; [|by apply Hn].
  destruct (stop s); [done|].
  destruct (Hfalse eq_refl) as [[Hd|Hd] _]; rewrite Hd in Hj; done.
Qed.

(** X12.  The size of the pool is fixed and a worker that has returned never
    runs again: along any schedule the vector of workers keeps its length
    and a worker at its return stays there. *)
Theorem workers_never_restart sched s s' i :
  run call sched s = Some s' →
  length (workers s') = length (workers s) ∧
  (workers s !! i = Some WExit → workers s' !! i = Some WExit).
Proof.
  revert s. induction sched as [|a sched IH]; intros s Hrun.
  - simpl in Hrun. by simplify_eq.
  - simpl in Hrun. destruct (step call a s) as [s1|] eqn:Hs; [|done].
    destruct (IH _ Hrun) as [Hl He].
    split; [rewrite Hl; by eapply step_length_workers|].
    intros Hi. apply He. clear -Hs Hi.
    step_cases Hs; simpl; try done.
    all: try (by apply notify_one_exit).
    all: try (by apply notify_all_exit).
    all: rewrite list_lookup_insert_ne; [done|congruence].
Qed.

(** X13.  Submit, then run: on an empty queue, a call of [enqueue] followed
    by one turn of a worker that was at the top of its loop executes exactly
    the submitted task; the queue is empty again and the worker is back at
    the top of its loop. *)
Theorem submit_then_run s i j pick t rest v :
  terminated s = false → destroyed s = false →
  queue_mutex s = None → tasks s = [] →
  workers s !! i = Some WLock →
  callers s !! j = Some (MkCaller CCall (t :: rest)) →
  call t (env s) = Some v →
  ∃ s', run call (replicate 4 (ACaller j pick) ++ replicate 7 (AWorker i)) s
        = Some s' ∧
    tasks s' = [] ∧ env s' = v ∧
    executed s' = (length (submitted s), t) :: executed s ∧
    workers s' !! i = Some WLock ∧ queue_mutex s' = None.
Proof.
  intros Ht Hdd Hm Hq Hw Hc Hv.
  rewrite run_app.
  pose proof (enqueue_call_spec s j pick t rest Ht Hdd Hm Hc) as He.
  unfold enqueue_call in He. rewrite He. clear He. cbn [mbind option_bind].
  assert (notify_one pick (workers s) !! i = Some WLock) as Hw'
    by (by apply notify_one_others).
  pose proof (lookup_lt_Some _ _ _ Hw') as Hlt.
  revert Hw' Hlt. generalize (notify_one pick (workers s)). intros ws Hw' Hlt.
  destruct s as [ws0 q m st mc md cs ev tm sub cl ex ps].
  unfold destroyed in Hdd. cbn in Ht, Hdd, Hm, Hq, Hv. subst.
  cbn [replicate].
  erewrite run_step_Some; cycle 1.
  { unfold step, destroyed, worker_step. cbn. by rewrite Hdd, Hw'. }
  erewrite run_step_Some; cycle 1.
  { unfold step, destroyed, worker_step. cbn.
    by rewrite Hdd, list_lookup_insert_eq, orb_true_r. }
  erewrite run_step_Some; cycle 1.
  { unfold step, destroyed, worker_step. cbn.
    rewrite Hdd, list_insert_insert_eq, list_lookup_insert_eq by done.
    by rewrite andb_false_r. }
  erewrite run_step_Some; cycle 1.
  { unfold step, destroyed, worker_step. cbn.
    by rewrite Hdd, !list_insert_insert_eq, list_lookup_insert_eq. }
  erewrite run_step_Some; cycle 1.
  { unfold step, destroyed, worker_step. cbn.
    by rewrite Hdd, !list_insert_insert_eq, list_lookup_insert_eq. }
  erewrite run_step_Some; cycle 1.
  { unfold step, destroyed, worker_step. cbn.
    by rewrite Hdd, !list_insert_insert_eq, list_lookup_insert_eq. }
  erewrite run_step_Some; cycle 1.
  { unfold step, destroyed, worker_step. cbn.
    rewrite Hdd, !list_insert_insert_eq, list_lookup_insert_eq by done.
    cbn [snd]. by rewrite Hv. }
  eexists. split; [reflexivity|]. cbn.
  by rewrite !list_insert_insert_eq, list_lookup_insert_eq.
Qed.

(** *** No lost wake-up *)

Lemma served_insert ws i w :
  i < length ws → awake w = true → served (<[i:=w]> ws).
Proof.
  intros Hlt Hw. left. exists i, w. split; [|done].
  by apply list_lookup_insert_eq.
Qed.

Lemma served_or_waiting (ws : list (@wpc Task)) :
  served ws ∨ ∃ i, ws !! i = Some WWait.
Proof.
  induction ws as [|w ws IH].
  - left. right. intros i w Hi. by destruct i.
  - destruct (awake w) eqn:Hw.
    { left. left. by exists 0, w. }
    destruct IH as [[(i & x & Hi & Hx)|Hall]|[i Hi]].
    + left. left. by exists (S i), x.
    + destruct w; try done.
      * right. by exists 0.
      * left. right. intros [|i] x Hi; simpl in Hi; [by simplify_eq|eauto].
    + right. by exists (S i).
Qed.

Lemma served_notify_one pick (ws : list (@wpc Task)) :
  served (notify_one pick ws).
Proof.
  destruct (served_or_waiting ws) as [[(i & w & Hi & Hw)|Hall]|Hex].
  - left. exists i, w. split; [|done].
    apply notify_one_others; [done|]. by intros ->.
  - right. intros i w Hi.
    apply notify_one_Some in Hi as (x & Hi & [?|[? ?]]); subst.
    + eauto.
    + by specialize (Hall _ _ Hi).
  - destruct (notify_one_wakes pick ws Hex) as (i & _ & Hi).
    left. by exists i, WWoken.
Qed.

Lemma served_notify_all (ws : list (@wpc Task)) : served (notify_all ws).
Proof.
  destruct (served_or_waiting ws) as [[(i & w & Hi & Hw)|Hall]|[i Hi]].
  - left. exists i, w. split; [|done].
    unfold notify_all. rewrite list_lookup_fmap, Hi. by destruct w.
  - right. intros i w Hi.
    apply notify_all_Some in Hi as (x & Hi & [?|[? ?]]); subst.
    + eauto.
    + by specialize (Hall _ _ Hi).
  - left. exists i, WWoken. split; [|done].
    unfold notify_all. by rewrite list_lookup_fmap, Hi.
Qed.

Lemma wakeup_inv_step a s s' :
  step call a s = Some s' → wakeup_inv s → wakeup_inv s'.
Proof.
  unfold wakeup_inv. intros H IH.
  step_cases H; simpl; intros Hne.
  all: try match goal with Hx : _ || negb (is_empty _) = false |- _ =>
         apply orb_false_iff in Hx as [_ Hx];
         apply negb_false_iff, is_empty_true in Hx; congruence end.
  all: try match goal with Hx : _ && is_empty _ = true |- _ =>
         apply andb_true_iff in Hx as [_ Hx];
         apply is_empty_true in Hx; congruence end.
  all: try (left; apply served_insert; [by eapply lookup_lt_Some|done]).
  all: try (left; apply served_notify_one).
  all: try (left; apply served_notify_all).
  all: try (right; left; reflexivity).
  all: try (right; right; eexists _, _; split;
            [apply list_lookup_insert_eq; by eapply lookup_lt_Some|done]).
  all: try (by apply IH).
  all: try match goal with Ht : tasks _ = _ |- _ =>
         rewrite Ht in IH end.
  all: destruct IH as [Hs|[Hm|(j' & c' & Hj & Hc')]]; try done; auto.
  all: try match goal with Hl : main_c _ = _ |- _ =>
         rewrite Hl in Hm; done end.
  all: right; right; exists j', c'; split; [|done].
  all: first
    [ assumption
    | rewrite list_lookup_insert_ne; [done|]; intros ->; simplify_eq;
      match goal with Hp : c_pc _ = _ |- _ => rewrite Hp in Hc' end; done ].
Qed.

(** X15.  No lost wake-up: in every reachable state with a queued entry, some
    worker is awake, or a thread that has placed an entry in the queue has
    not yet called [notify_one], or every worker has returned.  Before the
    shutdown flag is set the last case is excluded, so in a pool with at
    least one worker a queued entry is never left with all workers asleep
    and no notification on its way. *)
Theorem no_lost_wakeup n script others ini sched s :
  run call sched (init n script others ini) = Some s →
  tasks s ≠ [] →
  ((∃ i w, workers s !! i = Some w ∧ awake w = true) ∨
   (∀ i w, workers s !! i = Some w → w = WExit) ∨
   notifying (c_pc (main_c s)) = true ∨
   (∃ j c, callers s !! j = Some c ∧ notifying (c_pc c) = true)) ∧
  (1 ≤ n → stop s = false →
   (∃ i w, workers s !! i = Some w ∧ awake w = true) ∨
   notifying (c_pc (main_c s)) = true ∨
   (∃ j c, callers s !! j = Some c ∧ notifying (c_pc c) = true)).
Proof.
  intros Hrun Hne.
  assert (wakeup_inv s) as Hw.
  { eapply (run_invariant wakeup_inv); eauto.
    - intros; by eapply wakeup_inv_step.
    - intros Hq. done. }
  specialize (Hw Hne).
  split.
  - destruct Hw as [[?|?]|[?|?]]; auto.
  - intros Hn Hs.
    destruct Hw as [[?|Hall]|[?|?]]; auto.
    exfalso.
    pose proof (inv_run _ _ _ _ _ _ Hrun) as (_ & _ & _ & _ & (Hfalse & _)).
    destruct (Hfalse Hs) as [_ Hnx].
    pose proof (run_length_workers _ _ _ _ _ _ Hrun) as Hlen.
    destruct (workers s) as [|w ws] eqn:Hws; [simpl in Hlen; lia|].
    apply (Hnx 0). simpl. f_equal. by apply (Hall 0).
Qed.

(** *** Tasks in execution *)

Lemma elem_of_in_flight s i e :
  workers s !! i = Some (WRun e) → e ∈ in_flight s.
Proof.
  intros Hi. unfold in_flight. apply list_elem_of_bind.
  exists (WRun e). split; [by apply list_elem_of_singleton|].
  by eapply list_elem_of_lookup_2.
Qed.

(** X16.  A task runs outside the locked scope and off the queue: in every
    reachable state the worker that is executing an entry does not own the
    mutex, and the entry was submitted, is no longer queued and is not yet
    in the execution log. *)
Theorem running_task_unlocked n script others ini sched s i e :
  run call sched (init n script others ini) = Some s →
  workers s !! i = Some (WRun e) →
  queue_mutex s ≠ Some (Worker i) ∧
  e ∈ submitted s ∧ (e ∉ tasks s) ∧ (e ∉ executed s).
Proof.
  intros Hrun Hi.
  destruct (live_run _ _ _ _ _ _ Hrun) as (Hinv & Ho & _).
  pose proof (elem_of_in_flight _ _ _ Hi) as Hfl.
  pose proof (claimed_NoDup _ Hinv) as Hnd.
  pose proof Hinv as (_ & (Hsub & _) & _ & Hf & _).
  unfold flight_inv in Hf.
  assert (e ∈ snd <$> claimed s) as Hcl.
  { rewrite Hf. apply elem_of_app. by left. }
  split; [|split; [|split]].
  - intros Hm. specialize (Ho _ Hm). simpl in Ho. by rewrite Hi in Ho.
  - rewrite Hsub. apply elem_of_app. by right.
  - by apply claimed_not_queued.
  - intros Hex. rewrite Hf, fmap_app in Hnd.
    apply NoDup_app in Hnd as (_ & Hdis & _).
    apply (Hdis (fst e)); by apply list_elem_of_fmap_2.
Qed.

Lemma length_in_flight (ws : list (@wpc Task)) :
  length (ws ≫= held) ≤ length ws.
Proof.
  induction ws as [|w ws IH]; [done|].
  rewrite bind_cons, length_app. destruct w; simpl in *; lia.
Qed.

(** X18.  At most as many tasks are in progress as the pool has workers: in
    every reachable state the entries removed from the queue exceed the
    entries run to completion by at most the number of workers the pool was
    constructed with, and an entry is run to completion only after it was
    removed. *)
Theorem at_most_n_in_flight n script others ini sched s :
  run call sched (init n script others ini) = Some s →
  length (executed s) ≤ length (claimed s) ∧
  length (claimed s) ≤ length (executed s) + n.
Proof.
  intros Hrun.
  pose proof (run_length_workers _ _ _ _ _ _ Hrun) as Hlen.
  pose proof (inv_run _ _ _ _ _ _ Hrun) as (_ & _ & _ & Hf & _).
  unfold flight_inv in Hf. apply Permutation_length in Hf.
  rewrite length_fmap, length_app in Hf.
  pose proof (length_in_flight (workers s)) as Hfl.
  unfold in_flight in Hf. lia.
Qed.

(** *** Tasks that commute *)

Lemma sequential_perm l1 l2 :
  (∀ t1 t2 v, call t1 v ≫= call t2 = call t2 v ≫= call t1) →
  l1 ≡ₚ l2 → ∀ v, sequential call v l1 = sequential call v l2.
Proof.
  intros Hcomm. induction 1 as [|x l1 l2 Hp IH|x y l|l1 l2 l3 H1 IH1 H2 IH2];
    intros v.
  - done.
  - simpl. destruct (call x v); [apply IH|done].
  - simpl. pose proof (Hcomm x y v) as Hxy.
    destruct (call y v) as [vy|], (call x v) as [vx|]; simpl in Hxy.
    + destruct (call x vy), (call y vx); by simplify_eq.
    + destruct (call x vy); by simplify_eq.
    + destruct (call y vx); by simplify_eq.
    + done.
  - by rewrite IH1, IH2.
Qed.

(** X17.  When the tasks commute, scheduling does not show in the result:
    with the owning thread as only producer and at least one worker, once
    the destructor has returned the environment is the one a single thread
    obtains by running the script in order. *)
Theorem commuting_tasks_as_sequential n script ini sched s :
  (∀ t1 t2 v, call t1 v ≫= call t2 = call t2 v ≫= call t1) →
  1 ≤ n →
  run call sched (init n script [] ini) = Some s →
  main_d s = DDone →
  sequential call ini script = Some (env s).
Proof.
  intros Hcomm Hn Hrun Hd.
  pose proof (replay_run _ _ _ _ _ _ Hrun) as Hr.
  rewrite replay_sequential in Hr. rewrite <- Hr.
  apply sequential_perm; [done|].
  assert (0 < n) as Hn' by lia.
  destruct (single_producer_done _ _ _ _ _ Hn' Hrun Hd) as (_ & Hp & _).
  by rewrite <- Permutation_rev, Hp.
Qed.

(** *** Why the process ends, and the pool that is given nothing *)

(** X19.  The process is terminated only by a task that throws.  A step
    that terminates a live process is a step of a worker at line 33 whose
    callable throws in the environment it is called in.  In every reachable
    state in which the process has been terminated, some worker is still at
    line 33 with an entry that was submitted and is not recorded as executed,
    and the destructor has not returned. *)
Theorem terminated_only_by_throwing_task :
  (∀ a s s',
     step call a s = Some s' → terminated s = false → terminated s' = true →
     ∃ i e, a = AWorker i ∧ workers s !! i = Some (WRun e) ∧
            call (snd e) (env s) = None) ∧
  (∀ n script others ini sched s,
     run call sched (init n script others ini) = Some s →
     terminated s = true →
     main_d s ≠ DDone ∧
     ∃ i e, workers s !! i = Some (WRun e) ∧
            e ∈ submitted s ∧ (e ∉ executed s)).
Proof.
  split.
  - intros a s s' H Hs Ht.
    step_cases H; simpl in *; try congruence. eauto.
  - intros n script others ini sched s Hrun Ht.
    destruct (thrown_run _ _ _ _ _ _ Hrun Ht) as (i & e & Hi).
    pose proof (inv_run _ _ _ _ _ _ Hrun) as Hinv.
    pose proof (elem_of_in_flight _ _ _ Hi) as Hfl.
    pose proof (claimed_NoDup _ Hinv) as Hnd.
    destruct Hinv as (_ & (Hsub & _) & _ & Hf & (_ & _ & _ & _ & Hdone)).
    unfold flight_inv in Hf.
    split.
    { intros Hd. by specialize (Hdone Hd _ _ Hi). }
    exists i, e. split; [done|]. split.
    + rewrite Hsub, Hf. apply elem_of_app. right. apply elem_of_app. by left.
    + intros Hex. rewrite Hf, fmap_app in Hnd.
      apply NoDup_app in Hnd as (_ & Hdis & _).
      apply (Hdis (fst e)); by apply list_elem_of_fmap_2.
Qed.

(** X20.  A pool that is given nothing does nothing: when neither the owning
    thread nor any other thread submits, in every reachable state the queue
    and the logs are empty, no worker holds an entry, the environment is the
    initial one and the process has not been terminated, whatever the number
    of workers. *)
Theorem empty_pool_does_nothing n ini sched s :
  run call sched (init n [] [] ini) = Some s →
  submitted s = [] ∧ tasks s = [] ∧ in_flight s = [] ∧ executed s = [] ∧
  env s = ini ∧ terminated s = false.
Proof.
  intros Hrun.
  destruct (script_run _ _ _ _ _ Hrun) as [Hscr _].
  apply app_eq_nil in Hscr as [Hscr _].
  apply (f_equal (@rev _)) in Hscr. rewrite rev_involutive in Hscr.
  simpl in Hscr. apply fmap_nil_inv in Hscr.
  pose proof (inv_run _ _ _ _ _ _ Hrun) as (_ & (Hsub & _) & _ & Hf & _).
  unfold flight_inv in Hf. rewrite Hscr in Hsub. symmetry in Hsub.
  apply app_eq_nil in Hsub as [Hq Hcl].
  apply (f_equal (@rev _)) in Hq. rewrite rev_involutive in Hq. simpl in Hq.
  rewrite Hcl in Hf. symmetry in Hf. apply Permutation_nil_r in Hf.
  apply app_eq_nil in Hf as [Hfl Hex].
  pose proof (replay_run _ _ _ _ _ _ Hrun) as Hr.
  rewrite Hex in Hr. simpl in Hr.
  repeat (split; [done || congruence|]).
  destruct (terminated s) eqn:Ht; [|done].
  destruct (thrown_run _ _ _ _ _ _ Hrun Ht) as (i & e & Hi).
  pose proof (elem_of_in_flight _ _ _ Hi) as Hin.
  rewrite Hfl in Hin. by apply elem_of_nil in Hin.
Qed.

(** X21.  Only the destructor shuts the pool down: in every reachable state
    the flag is set exactly when the destructor has executed line 51, and a
    worker that has returned from its loop implies that the flag is set; no
    worker leaves while the pool is in use. *)
Theorem shutdown_only_by_destructor n script others ini sched s :
  run call sched (init n script others ini) = Some s →
  (stop s = true ↔ main_d s ≠ DLive ∧ main_d s ≠ DSet) ∧
  (∀ i, workers s !! i = Some WExit → stop s = true).
Proof.
  intros Hrun.
  pose proof (inv_run _ _ _ _ _ _ Hrun)
    as (_ & _ & _ & _ & (Hfalse & Htrue & _)).
  split; [split|].
  - intros Hs. destruct (Htrue Hs) as (? & ? & _). done.
  - intros [H1 H2]. destruct (stop s) eqn:Hs; [done|].
    destruct (Hfalse eq_refl) as [[?|?] _]; done.
  - intros i Hi. destruct (stop s) eqn:Hs; [done|].
    destruct (Hfalse eq_refl) as [_ Hn]. by specialize (Hn i).
Qed.
End PoolFacts.

(** ** Checks on the concrete pools *)

Example demo_check :
  run demo_call demo_sched demo_init = Some demo_final ∧ main_d demo_final = DDone
  ∧ env demo_final = 3%nat ∧ executed demo_final = [(1, Some 2); (0, Some 1)]
  ∧ claimed demo_final = [(0, (1, Some 2)); (1, (0, Some 1))].
Proof. vm_compute. repeat split. Qed.

Example solo_check :
  run demo_call solo_sched solo_init = Some solo_final ∧ main_d solo_final = DDone
  ∧ env solo_final = 6%nat.
Proof. vm_compute. repeat split. Qed.

Example late_check :
  run demo_call late_prefix late_init = Some late_state ∧
  stop late_state = true ∧ queue_mutex late_state = None ∧
  enqueue_call demo_call 0 0 late_state = Some late_after ∧
  run demo_call (replicate 3 (AMain 0)) late_after = Some late_end ∧
  main_d late_end = DDone.
Proof. vm_compute. repeat split. Qed.

Example throw_check :
  run demo_call (replicate 8 (AMain 0) ++ replicate 6 (AWorker 0)) throw_init
  = Some throw_state ∧
  workers throw_state = [WRun (0, None)] ∧
  step demo_call (AWorker 0) throw_state = Some throw_after.
Proof. vm_compute. repeat split. Qed.

Example wake_check :
  workers wake_state = [WPred] ∧ length (tasks wake_state) = 3%nat ∧
  terminated wake_state = false ∧ destroyed wake_state = false.
Proof. vm_compute. repeat split. Qed.

Example bench_small_check :
  run bench_call bench_small_sched bench_small = Some bench_small_final ∧
  main_d bench_small_final = DDone.
Proof. vm_compute. repeat split. Qed.

(** ** The benchmark *)

Local Open Scope Z_scope.

Lemma u64_idem_l a b : u64 (u64 a + b) = u64 (a + b).
Proof. unfold u64. by rewrite Zplus_mod_idemp_l. Qed.

Lemma u64_idem_r a b : u64 (a + u64 b) = u64 (a + b).
Proof. unfold u64. by rewrite Zplus_mod_idemp_r. Qed.

Lemma heavy_loop_spec k : ∀ n i r,
  heavy_loop k n i (u64 r) = u64 (r + n * tri k i).
Proof.
  induction k as [|k IH]; intros n i r; simpl.
  - f_equal. lia.
  - rewrite u64_idem_l, u64_idem_r, IH. f_equal. lia.
Qed.

Lemma heavy_computation_closed n : heavy_computation n = u64 (n * 499500).
Proof.
  unfold heavy_computation. change 0 with (u64 0) at 2.
  rewrite heavy_loop_spec. f_equal.
Qed.

Lemma replay_bench (l : list (nat * bench_task)) :
  replay bench_call 0 l = Some (u64 (bench_sum (snd <$> l))).
Proof.
  induction l as [|[k [i]] l IH]; [done|].
  change (replay bench_call 0 ((k, AddHeavy i) :: l))
    with (replay bench_call 0 l ≫= bench_call (AddHeavy i)).
  rewrite IH. cbn [mbind option_bind bench_call].
  f_equal. rewrite u64_idem_l. f_equal.
  rewrite fmap_cons. apply Z.add_comm.
Qed.

Lemma bench_sum_perm l1 l2 : l1 ≡ₚ l2 → bench_sum l1 = bench_sum l2.
Proof. induction 1; simpl in *; lia. Qed.

Lemma bench_sum_app l1 l2 : bench_sum (l1 ++ l2) = bench_sum l1 + bench_sum l2.
Proof. induction l1 as [|t l1 IH]; simpl; lia. Qed.

Lemma bench_sum_script (n : nat) :
  Z.of_nat n ≤ 2 ^ 32 →
  bench_sum (bench_script n) = 499500 * (Z.of_nat n * (Z.of_nat n - 1) / 2).
Proof.
  unfold bench_script. induction n as [|n IH]; intros Hn; [done|].
  rewrite seq_S, fmap_app, bench_sum_app, IH by lia. cbn [fmap list_fmap bench_sum foldr payload plus].
  rewrite heavy_computation_closed. unfold u64.
  rewrite Z.mod_small by lia.
  replace (Z.of_nat (S n)) with (Z.of_nat n + 1) by lia.
  replace (Z.of_nat n + 1 - 1) with (Z.of_nat n) by lia.
  assert (∃ q, Z.of_nat n * (Z.of_nat n - 1) = 2 * q) as [q Hq].
  { destruct (Z.Even_or_Odd (Z.of_nat n)) as [[m Hm]|[m Hm]].
    - exists (m * (Z.of_nat n - 1)). lia.
    - exists (Z.of_nat n * m). lia. }
  replace ((Z.of_nat n + 1) * Z.of_nat n) with (2 * (q + Z.of_nat n)) by lia.
  rewrite Hq, !(Z.mul_comm 2), !Z.div_mul by lia. lia.
Qed.

(** The benchmark can run to the end of the destructor. *)
Lemma bench_completes :
  ∃ sched s, run bench_call sched bench_init = Some s ∧ main_d s = DDone.
Proof.
  destruct (shutdown_returns bench_call NUM_WORKERS (bench_script NUM_TASKS) [] 0%Z)
    as (sched & s & _ & Hrun & Hd).
  - by intros [i] v.
  - by exists sched, s.
Qed.

(** C9.  [heavy_computation(n)] is [n * 499500] modulo 2^64.  For every number
    of workers (at least one) and of tasks, once the destructor of the
    benchmark pool has returned the counter is the sum of
    [heavy_computation(i)] over the submitted [i], modulo 2^64.  For the
    benchmark itself, 8 workers and 100000 tasks, that sum does not wrap: the
    counter is exactly 2497475025000000. *)
Theorem benchmark_accumulator_exact :
  (∀ n, heavy_computation n = u64 (n * 499500)) ∧
  (∀ (w k : nat) sched s,
     (1 ≤ w)%nat →
     run bench_call sched (init w (bench_script k) [] 0) = Some s →
     main_d s = DDone →
     env s = u64 (bench_sum (bench_script k))) ∧
  (∀ sched s,
     run bench_call sched bench_init = Some s →
     main_d s = DDone →
     env s = bench_sum (bench_script NUM_TASKS) ∧
     env s = 2497475025000000).
Proof.
  assert (∀ (w k : nat) sched s,
     (1 ≤ w)%nat →
     run bench_call sched (init w (bench_script k) [] 0) = Some s →
     main_d s = DDone →
     env s = u64 (bench_sum (bench_script k))) as Hgen.
  { intros w k sched s Hw Hrun Hd.
    pose proof (replay_run _ _ _ _ _ _ _ Hrun) as Hr.
    rewrite replay_bench in Hr. injection Hr as <-. f_equal.
    apply bench_sum_perm.
    by destruct (single_producer_done _ _ _ _ _ _ Hw Hrun Hd) as (_ & -> & _). }
  split; [apply heavy_computation_closed|]. split; [exact Hgen|].
  intros sched s Hrun Hd.
  assert (bench_sum (bench_script NUM_TASKS) = 2497475025000000) as Hsum.
  { rewrite bench_sum_script; by vm_compute. }
  pose proof (Hgen NUM_WORKERS NUM_TASKS sched s (le_n_S _ _ (Nat.le_0_l _))
                Hrun Hd) as Henv.
  rewrite Hsum in Henv. rewrite Hsum, Henv. split; reflexivity.
Qed.

(** ** Instances on the concrete pools *)

Local Open Scope nat_scope.

Lemma drain_guarantee_witness :
  (∀ i w, workers demo_final !! i = Some w → w = WExit) ∧
  length (workers demo_final) = 2 ∧
  (∀ e, e ∈ pre_stop demo_final → e ∈ executed demo_final) ∧
  NoDup (fst <$> executed demo_final) ∧
  (∀ t, t ∈ [Some 1; Some 2] → t ∈ snd <$> executed demo_final) ∧
  (@nil (list (option nat)) = [] →
   snd <$> executed demo_final ≡ₚ [Some 1; Some 2]) ∧
  terminated demo_final = false ∧
  replay demo_call 0 (executed demo_final) = Some (env demo_final) ∧
  sequential demo_call 0 (rev (snd <$> executed demo_final))
  = Some (env demo_final).
Proof.
  apply (drain_guarantee demo_call 2 [Some 1; Some 2] [] 0 demo_sched demo_final).
  - lia.
  - vm_compute. reflexivity.
  - vm_compute. reflexivity.
Defined.

Lemma claimed_exactly_once_witness :
  NoDup (fst <$> (snd <$> claimed demo_final)) ∧
  NoDup (fst <$> executed demo_final).
Proof.
  destruct (claimed_exactly_once demo_call 2 [Some 1; Some 2] [] 0
              demo_sched demo_final) as (_ & _ & H1 & _ & _ & H2 & _).
  - vm_compute. reflexivity.
  - split; [exact H1|exact H2].
Defined.

Lemma fifo_order_witness :
  rev (snd <$> executed solo_final) = [Some 1; Some 2; Some 3] ∧
  sequential demo_call 0 [Some 1; Some 2; Some 3] = Some (env solo_final).
Proof.
  destruct (fifo_order demo_call 1 [Some 1; Some 2; Some 3] [] 0
              solo_sched solo_final) as (_ & H).
  - vm_compute. reflexivity.
  - destruct (H eq_refl eq_refl) as (_ & H2 & _ & H4).
    split; [apply H2|apply H4]; vm_compute; reflexivity.
Defined.

Lemma worker_termination_condition_witness :
  (∃ s' r, on_wake demo_call 0 wake_state = Some s' ∧
     workers s' !! 0 ≫= outcome = Some r ∧
     (r = Terminate ↔ tasks wake_state = [] ∧ stop wake_state = true) ∧
     (r = Block ↔ tasks wake_state = [] ∧ stop wake_state = false) ∧
     (∀ e q, tasks wake_state = e :: q → r = Claim e ∧ tasks s' = q)) ∧
  (workers exit_state !! 0 = Some WExit ∨
   (AWorker 0 = AWorker 0 ∧ workers exit_state !! 0 = Some WTest ∧
    tasks exit_state = [] ∧ stop exit_state = true)).
Proof.
  split.
  - apply (proj1 (worker_termination_condition demo_call) wake_state 0).
    + vm_compute. reflexivity.
    + vm_compute. reflexivity.
    + vm_compute. reflexivity.
  - apply (proj2 (worker_termination_condition demo_call)
             (AWorker 0) exit_state late_state 0).
    + vm_compute. reflexivity.
    + vm_compute. reflexivity.
Defined.

Lemma enqueue_postcondition_witness :
  ∃ s', enqueue_call demo_call 0 0 waiting_state = Some s' ∧
    callers s' !! 0 = Some (MkCaller CCall []) ∧
    tasks s' = tasks waiting_state ++ [(length (submitted waiting_state), Some 7)] ∧
    length (tasks s') = S (length (tasks waiting_state)) ∧
    take (length (tasks waiting_state)) (tasks s') = tasks waiting_state ∧
    queue_mutex s' = None ∧
    ((∃ i, workers waiting_state !! i = Some WWait) →
      ∃ i, workers waiting_state !! i = Some WWait ∧
           workers s' !! i = Some WWoken) ∧
    (∀ i w, workers waiting_state !! i = Some w → w ≠ WWait →
            workers s' !! i = Some w).
Proof.
  apply (enqueue_postcondition demo_call waiting_state 0 (Some 7) []).
  - vm_compute. reflexivity.
  - vm_compute. reflexivity.
  - vm_compute. reflexivity.
  - vm_compute. reflexivity.
Defined.

Lemma enqueue_ignores_shutdown_witness :
  ∃ s', enqueue_call demo_call 0 0 late_state = Some s' ∧
    tasks s' = tasks late_state ++ [(length (submitted late_state), Some 7)] ∧
    callers s' !! 0 = Some (MkCaller CCall []) ∧
    stop s' = true ∧ terminated s' = false.
Proof.
  apply (proj2 (enqueue_ignores_shutdown demo_call) late_state 0 0 (Some 7) []).
  - vm_compute. reflexivity.
  - vm_compute. reflexivity.
  - vm_compute. reflexivity.
  - vm_compute. reflexivity.
  - vm_compute. reflexivity.
Defined.


Lemma shutdown_flag_one_way_witness : stop late_after = true.
Proof.
  apply (proj2 (shutdown_flag_one_way demo_call)
           (replicate 4 (ACaller 0 0)) late_state late_after).
  - vm_compute. reflexivity.
  - vm_compute. reflexivity.
Defined.

Lemma benchmark_accumulator_exact_witness :
  env bench_small_final = u64 (bench_sum (bench_script 3)).
Proof.
  apply (proj1 (proj2 benchmark_accumulator_exact) 8 3 bench_small_sched
           bench_small_final).
  - lia.
  - vm_compute. reflexivity.
  - vm_compute. reflexivity.
Defined.

Lemma zero_workers_witness :
  executed idle_state = [] ∧ claimed idle_state = [] ∧
  tasks idle_state = rev (submitted idle_state).
Proof.
  apply (proj2 (proj2 (zero_workers demo_call [Some 1; Some 2] 0))
           [] (replicate 4 (AMain 0)) idle_state).
  vm_compute. reflexivity.
Defined.

(** ** Where the code departs from the specification *)

(** C6 fails on the code: a submission made after the shutdown flag is set,
    here even after the only worker has returned, is accepted without any
    error; the task is appended to the queue, and it is still there, never
    executed, when the destructor has returned. *)
Lemma submit_after_shutdown_accepted :
  run demo_call late_prefix late_init = Some late_state ∧
  stop late_state = true ∧ workers late_state = [WExit] ∧
  enqueue_call demo_call 0 0 late_state = Some late_after ∧
  tasks late_state = [] ∧ tasks late_after = [(0, Some 7)] ∧
  callers late_after = [MkCaller CCall []] ∧ terminated late_after = false ∧
  run demo_call (replicate 3 (AMain 0)) late_after = Some late_end ∧
  main_d late_end = DDone ∧ tasks late_end = [(0, Some 7)] ∧
  executed late_end = [] ∧
  ¬ (∀ s j pick s', stop s = true →
       enqueue_call demo_call j pick s = Some s' → tasks s' = tasks s).
Proof.
  repeat (split; [vm_compute; reflexivity|]).
  intros H.
  assert (stop late_state = true) as H1 by (vm_compute; reflexivity).
  assert (enqueue_call demo_call 0 0 late_state = Some late_after) as H2
    by (vm_compute; reflexivity).
  specialize (H late_state 0 0 late_after H1 H2).
  vm_compute in H. discriminate H.
Qed.


(** ** The counter of the benchmark and the function [main] *)

Lemma bench_call_total (t : bench_task) (v : Z) : bench_call t v ≠ None.
Proof. by destruct t. Qed.

(** X8.  The counter follows the execution log: in every reachable state of
    a pool that runs the benchmark closures on a counter starting at 0, the
    counter is the sum of [heavy_computation(i)] over the closures executed
    so far, modulo 2^64, and the process has not been terminated. *)
Theorem benchmark_counter_running w script others sched s :
  run bench_call sched (init w script others 0%Z) = Some s →
  env s = u64 (bench_sum (snd <$> executed s)) ∧
  (0 ≤ env s < 2 ^ 64)%Z ∧
  terminated s = false.
Proof.
  intros Hrun.
  pose proof (replay_run _ _ _ _ _ _ _ Hrun) as Hr.
  rewrite replay_bench in Hr. injection Hr as Hr.
  split; [done|]. split.
  - rewrite <- Hr. unfold u64. apply Z.mod_pos_bound. done.
  - eapply (run_invariant bench_call (λ s, terminated s = false)); eauto.
    intros; eapply never_terminated; eauto using bench_call_total.
Qed.

Lemma destroyed_done {Task Env} (s : @state Task Env) :
  destroyed s = true → main_d s = DDone.
Proof. unfold destroyed. by destruct (main_d s). Qed.

Lemma pool_block_result w k sched c :
  1 ≤ w → pool_block w k sched = Some c →
  c = u64 (bench_sum (bench_script k)).
Proof.
  unfold pool_block. intros Hw H.
  destruct (run bench_call sched _) as [s|] eqn:Hrun; [|done].
  destruct (destroyed s) eqn:Hd; [|done]. injection H as <-.
  apply destroyed_done in Hd.
  pose proof (replay_run _ _ _ _ _ _ _ Hrun) as Hr.
  rewrite replay_bench in Hr. injection Hr as <-. f_equal.
  apply bench_sum_perm.
  assert (0 < w) as Hw' by lia.
  by destruct (single_producer_done _ _ _ _ _ _ Hw' Hrun Hd) as (_ & -> & _).
Qed.

Lemma pool_block_returns w k : ∃ sched c, pool_block w k sched = Some c.
Proof.
  destruct (shutdown_returns bench_call w (bench_script k) [] 0%Z bench_call_total)
    as (sched & s & _ & Hrun & Hd).
  exists sched, (env s). unfold pool_block, destroyed. by rewrite Hrun, Hd.
Qed.

(** X9.  The function [main].  Whatever the schedules of its two pools, if
    [main] reaches line 107 the count it prints is the sum of
    [heavy_computation(i)] over the closures of the benchmark block, modulo
    2^64; the warm-up block does not show in it.  With the sizes of the
    source the count is 2497475025000000, and [main] can reach line 107. *)
Theorem main_final_count :
  (∀ w warm k sched1 sched2 c,
     1 ≤ w →
     main_with w warm k sched1 sched2 = Some c →
     c = u64 (bench_sum (bench_script k))) ∧
  (∀ sched1 sched2 c,
     main sched1 sched2 = Some c → c = 2497475025000000%Z) ∧
  (∃ sched1 sched2 c, main sched1 sched2 = Some c).
Proof.
  assert (∀ w warm k sched1 sched2 c,
     1 ≤ w →
     main_with w warm k sched1 sched2 = Some c →
     c = u64 (bench_sum (bench_script k))) as Hgen.
  { intros w warm k sched1 sched2 c Hw H. unfold main_with in H.
    destruct (pool_block w warm sched1); [|done].
    by apply (pool_block_result w k sched2). }
  split; [exact Hgen|]. split.
  - intros sched1 sched2 c H.
    assert (bench_sum (bench_script NUM_TASKS) = 2497475025000000%Z) as Hsum.
    { rewrite bench_sum_script; by vm_compute. }
    assert (1 ≤ NUM_WORKERS) as Hw by (unfold NUM_WORKERS; lia).
    pose proof (Hgen NUM_WORKERS WARMUP_TASKS NUM_TASKS sched1 sched2 c Hw H)
      as Hc.
    rewrite Hsum in Hc. rewrite Hc. reflexivity.
  - destruct (pool_block_returns NUM_WORKERS WARMUP_TASKS) as (sched1 & c1 & H1).
    destruct (pool_block_returns NUM_WORKERS NUM_TASKS) as (sched2 & c2 & H2).
    exists sched1, sched2, c2. unfold main, main_with. by rewrite H1.
Qed.

(** X14.  [heavy_computation] on a 64-bit argument returns a 64-bit value,
    and that value is the product [n * 499500] without wrap-around exactly
    for the arguments up to 36930418565985. *)
Theorem heavy_computation_exact_range (n : Z) :
  (0 ≤ n < 2 ^ 64)%Z →
  (0 ≤ heavy_computation n < 2 ^ 64)%Z ∧
  (heavy_computation n = n * 499500 ↔ n ≤ HEAVY_EXACT_MAX)%Z.
Proof.
  intros Hn. rewrite heavy_computation_closed. unfold u64, HEAVY_EXACT_MAX.
  change (2 ^ 64)%Z with 18446744073709551616%Z in *.
  pose proof (Z.mod_pos_bound (n * 499500) 18446744073709551616 eq_refl) as Hb.
  split; [done|]. split.
  - intros E. rewrite E in Hb. lia.
  - intros Hle. apply Z.mod_small. lia.
Qed.

(** ** Further instances on the concrete pools *)

Lemma pool_never_deadlocks_witness :
  ∃ a s', is_wake a = false ∧ step demo_call a wake_state = Some s'.
Proof.
  apply (pool_never_deadlocks demo_call 1 [Some 1; Some 2; Some 3] [] 0
           (replicate 12 (AMain 0) ++ [AWorker 0]) wake_state).
  - vm_compute. reflexivity.
  - vm_compute. reflexivity.
  - vm_compute. discriminate.
Defined.

Lemma spurious_free_run_bounded_witness :
  length demo_sched ≤
  16 * (length [Some 1; Some 2] + total length (@nil (list (option nat))))
  + 13 * 2 + 7.
Proof.
  apply (spurious_free_run_bounded demo_call 2 [Some 1; Some 2] [] 0
           demo_sched demo_final).
  - vm_compute. reflexivity.
  - unfold no_spurious. vm_compute. repeat constructor.
Defined.

Lemma destructor_can_always_return_witness :
  ∃ sched' s', no_spurious sched' ∧
    run bench_call sched' bench_small = Some s' ∧ main_d s' = DDone.
Proof.
  apply (destructor_can_always_return bench_call NUM_WORKERS (bench_script 3)
           [] 0%Z [] bench_small).
  - intros [i] v. discriminate.
  - reflexivity.
Defined.

Lemma front_never_on_empty_queue_witness :
  tasks front_state ≠ [] ∧ is_Some (step demo_call (AWorker 0) front_state).
Proof.
  apply (front_never_on_empty_queue demo_call 1 [Some 1; Some 2; Some 3] [] 0
           (replicate 12 (AMain 0) ++ replicate 3 (AWorker 0)) front_state
           0 WFront).
  - vm_compute. reflexivity.
  - vm_compute. reflexivity.
  - vm_compute. reflexivity.
  - left. reflexivity.
Defined.

Lemma mutex_owner_unique_witness :
  (∀ t, holds wake_state t = true ↔ queue_mutex wake_state = Some t) ∧
  (∀ t u, holds wake_state t = true → holds wake_state u = true → t = u).
Proof.
  apply (mutex_owner_unique demo_call 1 [Some 1; Some 2; Some 3] [] 0
           (replicate 12 (AMain 0) ++ [AWorker 0]) wake_state).
  vm_compute. reflexivity.
Defined.

Lemma tasks_conserved_witness :
  tasks front_state ++ in_flight front_state ++ executed front_state
    ≡ₚ submitted front_state ∧
  NoDup (fst <$> (tasks front_state ++ in_flight front_state ++
                  executed front_state)) ∧
  fst <$> rev (submitted front_state) = seq 0 (length (submitted front_state)).
Proof.
  apply (tasks_conserved demo_call 1 [Some 1; Some 2; Some 3] [] 0
           (replicate 12 (AMain 0) ++ replicate 3 (AWorker 0)) front_state).
  vm_compute. reflexivity.
Defined.

Lemma spurious_wake_harmless_witness :
  run demo_call [AWake 0; AWorker 0; AWorker 0] waiting_state
  = Some waiting_state.
Proof.
  apply (spurious_wake_harmless demo_call waiting_state 0).
  - vm_compute. reflexivity.
  - vm_compute. reflexivity.
  - vm_compute. reflexivity.
  - vm_compute. reflexivity.
  - vm_compute. reflexivity.
  - vm_compute. reflexivity.
Defined.

Lemma queue_empty_after_shutdown_witness :
  tasks demo_final = [] ∧ in_flight demo_final = [] ∧
  queue_mutex demo_final = None ∧
  executed demo_final ≡ₚ submitted demo_final ∧
  length (executed demo_final) = length [Some 1; Some 2] ∧
  replay demo_call 0 (executed demo_final) = Some (env demo_final).
Proof.
  apply (queue_empty_after_shutdown demo_call 2 [Some 1; Some 2] 0
           demo_sched demo_final).
  - lia.
  - vm_compute. reflexivity.
  - vm_compute. reflexivity.
Defined.

Lemma no_wait_after_notify_all_witness :
  stop late_end = true ∧ workers late_end !! 0 ≠ Some WWait.
Proof.
  apply (no_wait_after_notify_all demo_call 1 [] [[Some 7]] 0
           (late_prefix ++ replicate 4 (ACaller 0 0) ++ replicate 3 (AMain 0))
           late_end 0).
  - vm_compute. reflexivity.
  - vm_compute. reflexivity.
Defined.

Lemma workers_never_restart_witness :
  length (workers late_after) = length (workers late_state) ∧
  (workers late_state !! 0 = Some WExit → workers late_after !! 0 = Some WExit).
Proof.
  apply (workers_never_restart demo_call (replicate 4 (ACaller 0 0))
           late_state late_after 0).
  vm_compute. reflexivity.
Defined.

Lemma submit_then_run_witness :
  ∃ s', run demo_call (replicate 4 (ACaller 0 0) ++ replicate 7 (AWorker 0))
          late_init = Some s' ∧
    tasks s' = [] ∧ env s' = 7 ∧
    executed s' = (length (submitted late_init), Some 7) :: executed late_init ∧
    workers s' !! 0 = Some WLock ∧ queue_mutex s' = None.
Proof.
  apply (submit_then_run demo_call late_init 0 0 0 (Some 7) [] 7).
  - vm_compute. reflexivity.
  - vm_compute. reflexivity.
  - vm_compute. reflexivity.
  - vm_compute. reflexivity.
  - vm_compute. reflexivity.
  - vm_compute. reflexivity.
  - vm_compute. reflexivity.
Defined.

Lemma no_lost_wakeup_witness :
  ((∃ i w, workers wake_state !! i = Some w ∧ awake w = true) ∨
   (∀ i w, workers wake_state !! i = Some w → w = WExit) ∨
   notifying (c_pc (main_c wake_state)) = true ∨
   (∃ j c, callers wake_state !! j = Some c ∧ notifying (c_pc c) = true)) ∧
  (1 ≤ 1 → stop wake_state = false →
   (∃ i w, workers wake_state !! i = Some w ∧ awake w = true) ∨
   notifying (c_pc (main_c wake_state)) = true ∨
   (∃ j c, callers wake_state !! j = Some c ∧ notifying (c_pc c) = true)).
Proof.
  apply (no_lost_wakeup demo_call 1 [Some 1; Some 2; Some 3] [] 0
           (replicate 12 (AMain 0) ++ [AWorker 0]) wake_state).
  - vm_compute. reflexivity.
  - vm_compute. discriminate.
Defined.

Lemma running_task_unlocked_witness :
  queue_mutex throw_state ≠ Some (Worker 0) ∧
  (0, None) ∈ submitted throw_state ∧
  ((0, None) ∉ tasks throw_state) ∧ ((0, None) ∉ executed throw_state).
Proof.
  apply (running_task_unlocked demo_call 1 [None; Some 5] [] 0
           (replicate 8 (AMain 0) ++ replicate 6 (AWorker 0)) throw_state 0
           (0, None)).
  - vm_compute. reflexivity.
  - vm_compute. reflexivity.
Defined.

Lemma at_most_n_in_flight_witness :
  length (executed throw_state) ≤ length (claimed throw_state) ∧
  length (claimed throw_state) ≤ length (executed throw_state) + 1.
Proof.
  apply (at_most_n_in_flight demo_call 1 [None; Some 5] [] 0
           (replicate 8 (AMain 0) ++ replicate 6 (AWorker 0)) throw_state).
  vm_compute. reflexivity.
Defined.

Lemma commuting_tasks_as_sequential_witness :
  sequential bench_call 0%Z (bench_script 3) = Some (env bench_small_final).
Proof.
  apply (commuting_tasks_as_sequential bench_call NUM_WORKERS (bench_script 3)
           0%Z bench_small_sched bench_small_final).
  - intros [i] [k] v. cbn [bench_call mbind option_bind]. f_equal.
    rewrite !u64_idem_l. f_equal. lia.
  - unfold NUM_WORKERS. lia.
  - vm_compute. reflexivity.
  - vm_compute. reflexivity.
Defined.

Lemma benchmark_counter_running_witness :
  env bench_small_final = u64 (bench_sum (snd <$> executed bench_small_final)) ∧
  (0 ≤ env bench_small_final < 2 ^ 64)%Z ∧
  terminated bench_small_final = false.
Proof.
  apply (benchmark_counter_running NUM_WORKERS (bench_script 3) []
           bench_small_sched bench_small_final).
  vm_compute. reflexivity.
Defined.

Lemma main_final_count_witness :
  1498500%Z = u64 (bench_sum (bench_script 3)).
Proof.
  apply (proj1 main_final_count 8 3 3 bench_small_sched bench_small_sched
           1498500%Z).
  - lia.
  - vm_compute. reflexivity.
Defined.

Lemma heavy_computation_exact_range_witness :
  (0 ≤ heavy_computation 100000 < 2 ^ 64)%Z ∧
  (heavy_computation 100000 = 100000 * 499500 ↔ 100000 ≤ HEAVY_EXACT_MAX)%Z.
Proof.
  apply (heavy_computation_exact_range 100000).
  split; [lia|reflexivity].
Defined.

Lemma terminated_only_by_throwing_task_witness :
  (∃ i e, AWorker 0 = AWorker i ∧
          workers throw_state !! i = Some (WRun e) ∧
          demo_call (snd e) (env throw_state) = None) ∧
  main_d throw_after ≠ DDone ∧
  (∃ i e, workers throw_after !! i = Some (WRun e) ∧
          e ∈ submitted throw_after ∧ (e ∉ executed throw_after)).
Proof.
  split.
  - apply (proj1 (terminated_only_by_throwing_task demo_call)
             (AWorker 0) throw_state throw_after).
    + vm_compute. reflexivity.
    + vm_compute. reflexivity.
    + vm_compute. reflexivity.
  - apply (proj2 (terminated_only_by_throwing_task demo_call)
             1 [None; Some 5] [] 0
             (replicate 8 (AMain 0) ++ replicate 7 (AWorker 0)) throw_after).
    + vm_compute. reflexivity.
    + vm_compute. reflexivity.
Defined.

Lemma empty_pool_does_nothing_witness :
  submitted empty_end = [] ∧ tasks empty_end = [] ∧
  in_flight empty_end = [] ∧ executed empty_end = [] ∧
  env empty_end = 5 ∧ terminated empty_end = false.
Proof.
  apply (empty_pool_does_nothing demo_call 1 5 empty_sched empty_end).
  vm_compute. reflexivity.
Defined.

Lemma shutdown_only_by_destructor_witness :
  (stop late_state = true ↔
   main_d late_state ≠ DLive ∧ main_d late_state ≠ DSet) ∧
  (∀ i, workers late_state !! i = Some WExit → stop late_state = true).
Proof.
  apply (shutdown_only_by_destructor demo_call 1 [] [[Some 7]] 0
           late_prefix late_state).
  vm_compute. reflexivity.
Defined.
